(** * spinning-wheel-sim: the physics step of [spin_wheel.py]

    A shallow embedding of [Config], [Ball] and [SpinningWheelSimulation]
    from [src/py-wheel/spin_wheel.py], and the properties of the integrator
    and contact resolver.

    Number model.  A Python [float] is modelled as a real number: the
    arithmetic is exact, [math.hypot] is the Euclidean norm, [math.cos] and
    [math.sin] are the real functions.  Rounding, infinities, NaN and the
    sign of zero are outside this model.  Python raises [ZeroDivisionError]
    on a float division by zero; that is kept, so [update] returns a
    [result].  A draw of [random.random()] is an explicit argument [u]
    (Python promises [0 <= u < 1]). *)

From Stdlib Require Import Reals Lra Lia ZArith List.
Import ListNotations.
Open Scope R_scope.

(** ** Python primitives *)

Inductive result (A : Type) : Type :=
| Ok (a : A)
| ZeroDivisionError.
Arguments Ok {A} a.
Arguments ZeroDivisionError {A}.

Definition bind {A B : Type} (m : result A) (k : A -> result B) : result B :=
  match m with
  | Ok a => k a
  | ZeroDivisionError => ZeroDivisionError
  end.

Notation "x <- m ;; k" := (bind m (fun x => k))
  (at level 61, m at next level, right associativity).

(** [a / b] on floats. *)
Definition truediv (a b : R) : result R :=
  if Req_dec_T b 0 then ZeroDivisionError else Ok (a / b).

(** [a or d] on floats: [a] is falsy exactly when it is zero. *)
Definition py_or (a d : R) : R :=
  if Req_dec_T a 0 then d else a.

(** [math.hypot(a, b)]. *)
Definition hypot (a b : R) : R := sqrt (a * a + b * b).

(** [math.copysign(a, b)]: the magnitude of [a] with the sign of [b]
    (a real zero counts as [+0.0]). *)
Definition copysign (a b : R) : R :=
  if Rle_dec 0 b then Rabs a else - Rabs a.

(** [math.tau]. *)
Definition tau : R := 2 * PI.

(** [random.uniform(a, b)] is [a + (b - a) * random.random()]. *)
Definition uniform (u a b : R) : R := a + (b - a) * u.

(** ** Data model *)

Definition color : Type := (Z * Z * Z)%type.

Record Config : Type := {
  window_size_px : Z;
  background_color : color;
  rim_inner_color : color;
  rim_outer_color : color;
  spoke_color_a : color;
  spoke_color_b : color;
  pixels_per_meter : R;
  gravity_m_s2 : R;
  air_drag_per_second : R;
  wall_restitution : R;
  mu_static : R;
  mu_kinetic : R;
  inward_radial_accel_m_s2 : R;
  wheel_angular_friction_per_second : R;
  ball_angular_friction_per_second : R;
  ball_spin_gain : R;
  rim_thickness_px : R;
  ball_radius_px : R;
  spoke_count : Z;
  spin_impulse_min : R;
  spin_impulse_max : R;
  ball_boost_speed_m_s : R
}.

(** [Config()]: the class attributes of the source. *)
Definition Config_default : Config := {|
  window_size_px := 820;
  background_color := (15, 17, 21)%Z;
  rim_inner_color := (27, 32, 48)%Z;
  rim_outer_color := (43, 49, 70)%Z;
  spoke_color_a := (255, 255, 255)%Z;
  spoke_color_b := (220, 225, 238)%Z;
  pixels_per_meter := 200;
  gravity_m_s2 := 5;
  air_drag_per_second := 0.10;
  wall_restitution := 0.25;
  mu_static := 0.45;
  mu_kinetic := 0.35;
  inward_radial_accel_m_s2 := 1.8;
  wheel_angular_friction_per_second := 0.25;
  ball_angular_friction_per_second := 2;
  ball_spin_gain := 6;
  rim_thickness_px := 24;
  ball_radius_px := 10;
  spoke_count := 36;
  spin_impulse_min := 0.6;
  spin_impulse_max := 1.2;
  ball_boost_speed_m_s := 2.2
|}.

Record Ball : Type := {
  x : R;
  y : R;
  vx : R;
  vy : R
}.

Record SpinningWheelSimulation : Type := {
  cfg : Config;
  width : Z;
  height : Z;
  center_x : R;
  center_y : R;
  wheel_radius_px : R;
  wheel_angle : R;
  wheel_omega : R;
  ball : Ball;
  ball_angle : R;
  ball_omega : R
}.

(** ** Operations *)

Definition place_ball_near_rim (u : R) (self : SpinningWheelSimulation)
  : SpinningWheelSimulation :=
  let angle := u * tau in
  let r := wheel_radius_px self - ball_radius_px (cfg self) - 1 in
  let ux := cos angle in
  let uy := sin angle in
  let tangential_x := - uy in
  let tangential_y := ux in
  let boost := ball_boost_speed_m_s (cfg self) * pixels_per_meter (cfg self) in
  {| cfg := cfg self;
     width := width self;
     height := height self;
     center_x := center_x self;
     center_y := center_y self;
     wheel_radius_px := wheel_radius_px self;
     wheel_angle := wheel_angle self;
     wheel_omega := wheel_omega self;
     ball := {| x := center_x self + ux * r;
                y := center_y self + uy * r;
                vx := tangential_x * boost;
                vy := tangential_y * boost |};
     ball_angle := ball_angle self;
     ball_omega := ball_omega self |}.

(** [SpinningWheelSimulation.__init__]; [u] is the draw of the placement. *)
Definition init (c : Config) (u : R) : SpinningWheelSimulation :=
  let w := window_size_px c in
  let h := window_size_px c in
  let visual_radius := IZR (Z.min w h) * 0.45 in
  place_ball_near_rim u
    {| cfg := c;
       width := w;
       height := h;
       center_x := IZR w * 0.5;
       center_y := IZR h * 0.5;
       wheel_radius_px := Rmax 40 (visual_radius - rim_thickness_px c);
       wheel_angle := 0;
       wheel_omega := 0.4;
       ball := {| x := 0; y := 0; vx := 0; vy := 0 |};
       ball_angle := 0;
       ball_omega := 0 |}.

Definition resize (new_width new_height : Z) (u : R)
  (self : SpinningWheelSimulation) : SpinningWheelSimulation :=
  let visual_radius := IZR (Z.min new_width new_height) * 0.45 in
  place_ball_near_rim u
    {| cfg := cfg self;
       width := new_width;
       height := new_height;
       center_x := IZR new_width * 0.5;
       center_y := IZR new_height * 0.5;
       wheel_radius_px := Rmax 40 (visual_radius - rim_thickness_px (cfg self));
       wheel_angle := wheel_angle self;
       wheel_omega := wheel_omega self;
       ball := ball self;
       ball_angle := ball_angle self;
       ball_omega := ball_omega self |}.

Definition randomize_spin (u : R) (self : SpinningWheelSimulation)
  : SpinningWheelSimulation :=
  {| cfg := cfg self;
     width := width self;
     height := height self;
     center_x := center_x self;
     center_y := center_y self;
     wheel_radius_px := wheel_radius_px self;
     wheel_angle := wheel_angle self;
     wheel_omega :=
       wheel_omega self
       + uniform u (spin_impulse_min (cfg self)) (spin_impulse_max (cfg self));
     ball := ball self;
     ball_angle := ball_angle self;
     ball_omega := ball_omega self |}.

Definition update (dt : R) (self : SpinningWheelSimulation)
  : result SpinningWheelSimulation :=
  let c := cfg self in
  let g := gravity_m_s2 c * pixels_per_meter c in
  let vy1 := vy (ball self) + g * dt in
  let air_k := Rmax 0 (1 - air_drag_per_second c * dt) in
  let vx2 := vx (ball self) * air_k in
  let vy2 := vy1 * air_k in
  let x1 := x (ball self) + vx2 * dt in
  let y1 := y (ball self) + vy2 * dt in
  let omega_k := Rmax 0 (1 - wheel_angular_friction_per_second c * dt) in
  let wheel_omega1 := wheel_omega self * omega_k in
  let wheel_angle1 := wheel_angle self + wheel_omega1 * dt in
  let ball_spin_k := Rmax 0 (1 - ball_angular_friction_per_second c * dt) in
  let ball_omega1 := ball_omega self * ball_spin_k in
  let dx := x1 - center_x self in
  let dy := y1 - center_y self in
  let dist := py_or (hypot dx dy) 1e-6 in
  nx <- truediv dx dist ;;
  ny <- truediv dy dist ;;
  let allowed := wheel_radius_px self - ball_radius_px c in
  if Rgt_dec dist allowed then
    let penetration := dist - allowed in
    let x2 := x1 - nx * penetration in
    let y2 := y1 - ny * penetration in
    let v_normal := vx2 * nx + vy2 * ny in
    let tx := - ny in
    let ty := nx in
    let v_tangential := vx2 * tx + vy2 * ty in
    let v_n := if Rgt_dec v_normal 0
               then - v_normal * wall_restitution c else v_normal in
    let surface_speed := wheel_omega1 * allowed in
    let slip := v_tangential - surface_speed - ball_omega1 * allowed in
    centripetal <- truediv (v_tangential * v_tangential) (Rmax 1 allowed) ;;
    let N := Rmax 0 (centripetal
                     + Rmax 0 (gravity_m_s2 c * pixels_per_meter c * ny)) in
    let Jmax_static := mu_static c * N * dt in
    let Jmax_kinetic := mu_kinetic c * N * dt in
    J_static <- truediv (- slip) 3 ;;
    let Jt := if Rle_dec (Rabs J_static) Jmax_static
              then J_static else - copysign Jmax_kinetic slip in
    let v_t := v_tangential + Jt in
    let vx3 := v_n * nx + v_t * tx in
    let vy3 := v_n * ny + v_t * ty in
    let inward_accel := inward_radial_accel_m_s2 c * pixels_per_meter c in
    let vx4 := vx3 + - nx * inward_accel * dt in
    let vy4 := vy3 + - ny * inward_accel * dt in
    let R_ := Rmax 1 (ball_radius_px c) in
    spin_kick <- truediv (-2 * Jt) R_ ;;
    let ball_omega2 := ball_omega1 + spin_kick in
    Ok {| cfg := c;
          width := width self;
          height := height self;
          center_x := center_x self;
          center_y := center_y self;
          wheel_radius_px := wheel_radius_px self;
          wheel_angle := wheel_angle1;
          wheel_omega := wheel_omega1;
          ball := {| x := x2; y := y2; vx := vx4; vy := vy4 |};
          ball_angle := ball_angle self + ball_omega2 * dt;
          ball_omega := ball_omega2 |}
  else
    Ok {| cfg := c;
          width := width self;
          height := height self;
          center_x := center_x self;
          center_y := center_y self;
          wheel_radius_px := wheel_radius_px self;
          wheel_angle := wheel_angle1;
          wheel_omega := wheel_omega1;
          ball := {| x := x1; y := y1; vx := vx2; vy := vy2 |};
          ball_angle := ball_angle self + ball_omega1 * dt;
          ball_omega := ball_omega1 |}.

(** ** The loop of [main]

    [main] clamps the integer millisecond count of [clock.tick] before it
    calls [update]. *)

Definition clamp_dt (dt_ms : Z) : R :=
  IZR (Z.max 0 (Z.min 32 dt_ms)) / 1000.

(** The states after each call of a sequence of [update] calls. *)
Fixpoint updates (dts : list R) (self : SpinningWheelSimulation)
  : result (list SpinningWheelSimulation) :=
  match dts with
  | [] => Ok []
  | dt :: dts' =>
      s1 <- update dt self ;;
      rest <- updates dts' s1 ;;
      Ok (s1 :: rest)
  end.

(** The events [main] reacts to.  An event carries the value of the random
    draw its handler makes (unused when the handler draws nothing). *)
Inductive key : Type := K_SPACE | K_r | K_other.

Inductive event : Type :=
| QUIT
| VIDEORESIZE (w h : Z) (u : R)
| MOUSEBUTTONDOWN (u : R)
| KEYDOWN (k : key) (u : R)
| OTHER.

Definition handle_event (sim : SpinningWheelSimulation) (e : event)
  : SpinningWheelSimulation :=
  match e with
  | QUIT => sim
  | VIDEORESIZE w h u => resize w h u sim
  | MOUSEBUTTONDOWN u => randomize_spin u sim
  | KEYDOWN K_SPACE u => randomize_spin u sim
  | KEYDOWN K_r u => place_ball_near_rim u sim
  | KEYDOWN K_other _ => sim
  | OTHER => sim
  end.

(** One pass of the loop of [main], rendering apart: clamp the tick,
    handle the pending events, call [update]. *)
Definition frame (dt_ms : Z) (events : list event) (sim : SpinningWheelSimulation)
  : result SpinningWheelSimulation :=
  let dt := clamp_dt dt_ms in
  update dt (fold_left handle_event events sim).

(** The geometry the constructor and [resize] establish, for a ball that
    fits the smallest wheel. *)
Definition built (sim : SpinningWheelSimulation) : Prop :=
  ball_radius_px (cfg sim) <= 39 /\ 40 <= wheel_radius_px sim.

(** ** The quantities of one step

    The intermediate values of [update dt self], named after the locals of
    the source, as functions of the step's input. *)

Section Step.
Variable dt : R.
Variable self : SpinningWheelSimulation.

Definition allowed : R := wheel_radius_px self - ball_radius_px (cfg self).

Definition g : R := gravity_m_s2 (cfg self) * pixels_per_meter (cfg self).

Definition air_k : R := Rmax 0 (1 - air_drag_per_second (cfg self) * dt).

(** Velocity after gravity and drag. *)
Definition drag_vx : R := vx (ball self) * air_k.
Definition drag_vy : R := (vy (ball self) + g * dt) * air_k.

(** Position after integration. *)
Definition moved_x : R := x (ball self) + drag_vx * dt.
Definition moved_y : R := y (ball self) + drag_vy * dt.

Definition omega_k : R :=
  Rmax 0 (1 - wheel_angular_friction_per_second (cfg self) * dt).
Definition ball_spin_k : R :=
  Rmax 0 (1 - ball_angular_friction_per_second (cfg self) * dt).

Definition decayed_wheel_omega : R := wheel_omega self * omega_k.
Definition decayed_ball_omega : R := ball_omega self * ball_spin_k.

Definition dx : R := moved_x - center_x self.
Definition dy : R := moved_y - center_y self.
Definition dist : R := py_or (hypot dx dy) 1e-6.
Definition nx : R := dx / dist.
Definition ny : R := dy / dist.

Definition v_normal : R := drag_vx * nx + drag_vy * ny.
Definition v_tangential : R := drag_vx * - ny + drag_vy * nx.

Definition v_n : R :=
  if Rgt_dec v_normal 0
  then - v_normal * wall_restitution (cfg self) else v_normal.

Definition slip : R :=
  v_tangential - decayed_wheel_omega * allowed - decayed_ball_omega * allowed.

Definition N : R :=
  Rmax 0 (v_tangential * v_tangential / Rmax 1 allowed
          + Rmax 0 (gravity_m_s2 (cfg self) * pixels_per_meter (cfg self) * ny)).

Definition Jmax_static : R := mu_static (cfg self) * N * dt.
Definition Jmax_kinetic : R := mu_kinetic (cfg self) * N * dt.
Definition J_static : R := - slip / 3.

Definition Jt : R :=
  if Rle_dec (Rabs J_static) Jmax_static
  then J_static else - copysign Jmax_kinetic slip.

Definition inward_accel : R :=
  inward_radial_accel_m_s2 (cfg self) * pixels_per_meter (cfg self).

Definition contact_ball_omega : R :=
  decayed_ball_omega + -2 * Jt / Rmax 1 (ball_radius_px (cfg self)).

(** The state [update] builds when [dist > allowed]. *)
Definition contact_state : SpinningWheelSimulation :=
  {| cfg := cfg self;
     width := width self;
     height := height self;
     center_x := center_x self;
     center_y := center_y self;
     wheel_radius_px := wheel_radius_px self;
     wheel_angle := wheel_angle self + decayed_wheel_omega * dt;
     wheel_omega := decayed_wheel_omega;
     ball := {| x := moved_x - nx * (dist - allowed);
                y := moved_y - ny * (dist - allowed);
                vx := v_n * nx + (v_tangential + Jt) * - ny
                      + - nx * inward_accel * dt;
                vy := v_n * ny + (v_tangential + Jt) * nx
                      + - ny * inward_accel * dt |};
     ball_angle := ball_angle self + contact_ball_omega * dt;
     ball_omega := contact_ball_omega |}.

(** The state [update] builds otherwise. *)
Definition free_state : SpinningWheelSimulation :=
  {| cfg := cfg self;
     width := width self;
     height := height self;
     center_x := center_x self;
     center_y := center_y self;
     wheel_radius_px := wheel_radius_px self;
     wheel_angle := wheel_angle self + decayed_wheel_omega * dt;
     wheel_omega := decayed_wheel_omega;
     ball := {| x := moved_x; y := moved_y; vx := drag_vx; vy := drag_vy |};
     ball_angle := ball_angle self + decayed_ball_omega * dt;
     ball_omega := decayed_ball_omega |}.
End Step.

(** Euclidean distance of the ball from the wheel center. *)
Definition distance (self : SpinningWheelSimulation) : R :=
  hypot (x (ball self) - center_x self) (y (ball self) - center_y self).

(** Speed of the ball. *)
Definition speed (self : SpinningWheelSimulation) : R :=
  hypot (vx (ball self)) (vy (ball self)).

(** [update] always returns: the state it builds is [contact_state] or
    [free_state], chosen by the test [dist > allowed]. *)
Definition update_state (dt : R) (self : SpinningWheelSimulation)
  : SpinningWheelSimulation :=
  if Rgt_dec (dist dt self) (allowed self)
  then contact_state dt self else free_state dt self.

(** ** Example states

    The window of [main]: 820 by 820 pixels, center (410, 410), inner
    radius [max(40, 820 * 0.45 - 24) = 345], so [allowed = 335]. *)

Definition state_at (bx by_ bvx bvy : R) : SpinningWheelSimulation :=
  {| cfg := Config_default;
     width := 820;
     height := 820;
     center_x := 410;
     center_y := 410;
     wheel_radius_px := 345;
     wheel_angle := 0;
     wheel_omega := 0.4;
     ball := {| x := bx; y := by_; vx := bvx; vy := bvy |};
     ball_angle := 0;
     ball_omega := 0 |}.

(** The ball 5 px beyond the allowed radius, moving outward. *)
Definition outside_state : SpinningWheelSimulation := state_at 750 410 10 0.

(** The ball 100 px below the center, moving sideways. *)
Definition inside_state : SpinningWheelSimulation := state_at 410 510 30 0.

(** The ball [2^-21] px (less than [1e-6]) right of the center, at rest. *)
Definition near_center_state : SpinningWheelSimulation :=
  state_at (410 + / 2097152) 410 0 0.

(** *** Friction, in the words of the specification *)

(** [sign(slip)]. *)
Definition sign (v : R) : R :=
  if Rlt_dec 0 v then 1 else if Rlt_dec v 0 then -1 else 0.

(** The normal-force estimate
    [N = max(0, v_t^2 / max(1, allowed) + max(0, gravity*pixelsPerMeter * n.y))]. *)
Definition spec_normal_force (c : Config) (v_t allowed_radius n_y : R) : R :=
  Rmax 0 (v_t * v_t / Rmax 1 allowed_radius
          + Rmax 0 (gravity_m_s2 c * pixels_per_meter c * n_y)).

(** [slip = v_t - surfaceSpeed - spinVelocity * allowed] with
    [surfaceSpeed = angularVelocity * allowed]. *)
Definition spec_slip (v_t angularVelocity spinVelocity allowed_radius : R) : R :=
  v_t - angularVelocity * allowed_radius - spinVelocity * allowed_radius.

(** The regime selection: the slip-zeroing impulse [-slip/3] when it is
    within [muStatic * N * dt], else [-sign(slip) * muKinetic * N * dt]. *)
Definition spec_friction_impulse (c : Config) (dt normal_force slip_speed : R) : R :=
  let maxStaticImpulse := mu_static c * normal_force * dt in
  let maxKineticImpulse := mu_kinetic c * normal_force * dt in
  let J_static := - slip_speed / 3 in
  if Rle_dec (Rabs J_static) maxStaticImpulse
  then J_static
  else - sign slip_speed * maxKineticImpulse.

(** ** Rendering

    [draw] and [_draw_spokes] only call pygame; they are modelled by the
    list of calls they make, in order, with the arguments they compute. *)

(** [int(v)] on a float: truncation toward zero. *)
Definition py_int (v : R) : Z :=
  if Rle_dec 0 v then Int_part v else (- Int_part (- v))%Z.

(** [range(n)]. *)
Definition range (n : Z) : list Z := map Z.of_nat (seq 0 (Z.to_nat n)).

Definition rgba : Type := (Z * Z * Z * Z)%type.
Definition point : Type := (R * R)%type.

Inductive draw_call : Type :=
| screen_fill (c : color)
| draw_circle (c : color) (center : Z * Z) (radius : Z) (line_width : Z)
| Surface (size : Z * Z)
| draw_polygon (c : rgba) (points : list point)
| screen_blit (dest : Z * Z)
| draw_line (c : color) (start_pos end_pos : point) (line_width : Z).

(** The body of the loop of [_draw_spokes]. *)
Definition spoke (self : SpinningWheelSimulation) (radius step : R) (i : Z)
  : draw_call :=
  let angle := wheel_angle self in
  let a := angle + IZR i * step in
  let ca := cos a in
  let sa := sin a in
  let x0 := center_x self + ca * (radius * 0.60) in
  let y0 := center_y self + sa * (radius * 0.60) in
  let x1 := center_x self + ca * (radius * 0.98) in
  let y1 := center_y self + sa * (radius * 0.98) in
  let color := if (i mod 2 =? 0)%Z
               then spoke_color_a (cfg self) else spoke_color_b (cfg self) in
  draw_line color (x0, y0) (x1, y1) 2.

Definition _draw_spokes (radius : R) (self : SpinningWheelSimulation)
  : result (list draw_call) :=
  step <- truediv tau (IZR (spoke_count (cfg self))) ;;
  Ok (map (spoke self radius step) (range (spoke_count (cfg self)))).

(** The vertices of the [i]-th wedge of [draw]. *)
Definition wedge_points (self : SpinningWheelSimulation)
  (outer_radius step : R) (i : Z) : list point :=
  let a0 := wheel_angle self + IZR i * step in
  let a1 := wheel_angle self + IZR (i + 1) * step in
  let x0 := center_x self + cos a0 * outer_radius in
  let y0 := center_y self + sin a0 * outer_radius in
  let x1 := center_x self + cos a1 * outer_radius in
  let y1 := center_y self + sin a1 * outer_radius in
  [(center_x self, center_y self); (x0, y0); (x1, y1)].

(** The body of the wedge loop of [draw]. *)
Definition wedge (self : SpinningWheelSimulation) (outer_radius step : R) (i : Z)
  : list draw_call :=
  let color := if (i mod 2 =? 0)%Z
               then (255, 255, 255, 40)%Z else (255, 255, 255, 80)%Z in
  [Surface (width self, height self);
   draw_polygon color (wedge_points self outer_radius step i);
   screen_blit (0, 0)%Z].

Definition draw (self : SpinningWheelSimulation) : result (list draw_call) :=
  let c := cfg self in
  let outer_radius := wheel_radius_px self + rim_thickness_px c in
  let inner_radius := wheel_radius_px self in
  let center := (py_int (center_x self), py_int (center_y self)) in
  step <- truediv tau (IZR (spoke_count c)) ;;
  let wedges := flat_map (wedge self outer_radius step) (range (spoke_count c)) in
  spokes <- _draw_spokes (outer_radius - rim_thickness_px c * 0.5) self ;;
  let hub_radius := Z.max 10 (py_int (rim_thickness_px c * 0.4)) in
  let ball_center := (py_int (x (ball self)), py_int (y (ball self))) in
  let r := ball_radius_px c in
  let ca := cos (ball_angle self) in
  let sa := sin (ball_angle self) in
  let ex0 := x (ball self) - ca * r in
  let ey0 := y (ball self) - sa * r in
  let ex1 := x (ball self) + ca * r in
  let ey1 := y (ball self) + sa * r in
  let mx0 := x (ball self) + sa * r in
  let my0 := y (ball self) - ca * r in
  let mx1 := x (ball self) - sa * r in
  let my1 := y (ball self) + ca * r in
  Ok ([screen_fill (background_color c);
       draw_circle (rim_outer_color c) center (py_int outer_radius) 0]
      ++ wedges
      ++ [draw_circle (background_color c) center (py_int inner_radius) 0]
      ++ spokes
      ++ [draw_circle (58, 65, 90)%Z center hub_radius 0;
          draw_circle (255, 255, 255)%Z ball_center (py_int (ball_radius_px c)) 0;
          draw_circle (0, 0, 0)%Z ball_center (py_int (ball_radius_px c)) 1;
          draw_line (31, 36, 52)%Z (ex0, ey0) (ex1, ey1) 3;
          draw_line (31, 36, 52)%Z (mx0, my0) (mx1, my1) 3]).

(** A segment on a ray from the wheel center, from [r0] to [r1] away. *)
Definition radial_segment (self : SpinningWheelSimulation) (r0 r1 : R)
  (call : draw_call) : Prop :=
  match call with
  | draw_line _ (x0, y0) (x1, y1) _ =>
      hypot (x0 - center_x self) (y0 - center_y self) = r0
      /\ hypot (x1 - center_x self) (y1 - center_y self) = r1
      /\ (x0 - center_x self) * (y1 - center_y self)
         - (y0 - center_y self) * (x1 - center_x self) = 0
      /\ 0 <= (x0 - center_x self) * (x1 - center_x self)
              + (y0 - center_y self) * (y1 - center_y self)
  | _ => False
  end.

(** ** The whole loop of [main]

    [inputs] holds, pass by pass, the tick of the clock and the pending
    events.  A pass that sees [QUIT] is the last one; the list of the
    simulation states at the end of each pass is returned. *)



(** * Properties *)

(** ** Basic facts *)

Lemma truediv_ok (a b : R) : b <> 0 -> truediv a b = Ok (a / b).
Proof.
  intros Hb. unfold truediv. destruct (Req_dec_T b 0); [contradiction | reflexivity].
Qed.

Lemma hypot_nonneg (a b : R) : 0 <= hypot a b.
Proof. apply sqrt_pos. Qed.

Lemma hypot_sqr (a b : R) : hypot a b * hypot a b = a * a + b * b.
Proof. unfold hypot. apply sqrt_sqrt. nra. Qed.

Lemma hypot_zero (a b : R) : hypot a b = 0 -> a = 0 /\ b = 0.
Proof.
  intros H. pose proof (hypot_sqr a b) as Hs. rewrite H in Hs. split; nra.
Qed.

Lemma hypot_unique (a b r : R) : 0 <= r -> r * r = a * a + b * b -> hypot a b = r.
Proof.
  intros Hr Heq. unfold hypot. apply sqrt_lem_1; [nra | exact Hr | exact Heq].
Qed.

Lemma Rmax_1_nonzero (a : R) : Rmax 1 a <> 0.
Proof. pose proof (Rmax_l 1 a). lra. Qed.

Lemma dist_pos (dt : R) (self : SpinningWheelSimulation) : 0 < dist dt self.
Proof.
  unfold dist, py_or.
  destruct (Req_dec_T (hypot (dx dt self) (dy dt self)) 0) as [_ | Hne].
  - lra.
  - pose proof (hypot_nonneg (dx dt self) (dy dt self)). lra.
Qed.

Lemma update_contact (dt : R) (self : SpinningWheelSimulation) :
  dist dt self > allowed self ->
  update dt self = Ok (contact_state dt self).
Proof.
  intros Hc.
  pose proof (dist_pos dt self) as Hd.
  unfold update.
  change (py_or _ _) with (dist dt self).
  rewrite !truediv_ok by lra. cbn [bind].
  change (wheel_radius_px self - ball_radius_px (cfg self)) with (allowed self).
  destruct (Rgt_dec (dist dt self) (allowed self)) as [_ | Hn]; [| contradiction].
  rewrite (truediv_ok _ (Rmax 1 (allowed self))) by apply Rmax_1_nonzero.
  cbn [bind].
  rewrite (truediv_ok _ 3) by lra. cbn [bind].
  rewrite truediv_ok by apply Rmax_1_nonzero. cbn [bind].
  reflexivity.
Qed.

Lemma update_free (dt : R) (self : SpinningWheelSimulation) :
  dist dt self <= allowed self ->
  update dt self = Ok (free_state dt self).
Proof.
  intros Hc.
  pose proof (dist_pos dt self) as Hd.
  unfold update.
  change (py_or _ _) with (dist dt self).
  rewrite !truediv_ok by lra. cbn [bind].
  change (wheel_radius_px self - ball_radius_px (cfg self)) with (allowed self).
  destruct (Rgt_dec (dist dt self) (allowed self)) as [Hn | _]; [lra |].
  reflexivity.
Qed.

Lemma update_eq (dt : R) (self : SpinningWheelSimulation) :
  update dt self = Ok (update_state dt self).
Proof.
  unfold update_state.
  destruct (Rgt_dec (dist dt self) (allowed self)) as [Hc | Hn].
  - apply update_contact. exact Hc.
  - apply update_free. lra.
Qed.

Lemma hypot_le_bound (a b r : R) :
  0 <= r -> a * a + b * b <= r * r -> hypot a b <= r.
Proof.
  intros Hr Hle.
  pose proof (hypot_nonneg a b) as Hh. pose proof (hypot_sqr a b) as Hs.
  nra.
Qed.

Lemma hypot_gt_bound (a b r : R) :
  0 <= r -> r * r < a * a + b * b -> r < hypot a b.
Proof.
  intros Hr Hlt.
  pose proof (hypot_nonneg a b) as Hh. pose proof (hypot_sqr a b) as Hs.
  nra.
Qed.

Lemma Rmax_0_1 : Rmax 0 (1 - 0) = 1.
Proof. unfold Rmax. destruct (Rle_dec 0 (1 - 0)); lra. Qed.

(** At [dt = 0] the integration stages change nothing. *)
Lemma air_k_0 (self : SpinningWheelSimulation) : air_k 0 self = 1.
Proof. unfold air_k. rewrite Rmult_0_r. apply Rmax_0_1. Qed.

Lemma omega_k_0 (self : SpinningWheelSimulation) : omega_k 0 self = 1.
Proof. unfold omega_k. rewrite Rmult_0_r. apply Rmax_0_1. Qed.

Lemma ball_spin_k_0 (self : SpinningWheelSimulation) : ball_spin_k 0 self = 1.
Proof. unfold ball_spin_k. rewrite Rmult_0_r. apply Rmax_0_1. Qed.

Lemma drag_vx_0 (self : SpinningWheelSimulation) :
  drag_vx 0 self = vx (ball self).
Proof. unfold drag_vx. rewrite air_k_0. ring. Qed.

Lemma drag_vy_0 (self : SpinningWheelSimulation) :
  drag_vy 0 self = vy (ball self).
Proof. unfold drag_vy. rewrite air_k_0. ring. Qed.

Lemma moved_x_0 (self : SpinningWheelSimulation) :
  moved_x 0 self = x (ball self).
Proof. unfold moved_x. ring. Qed.

Lemma moved_y_0 (self : SpinningWheelSimulation) :
  moved_y 0 self = y (ball self).
Proof. unfold moved_y. ring. Qed.

Lemma dist_0 (self : SpinningWheelSimulation) :
  dist 0 self = py_or (distance self) 1e-6.
Proof.
  unfold dist, distance, dx, dy. rewrite moved_x_0, moved_y_0. reflexivity.
Qed.

Lemma free_state_0 (self : SpinningWheelSimulation) : free_state 0 self = self.
Proof.
  unfold free_state, decayed_wheel_omega, decayed_ball_omega.
  rewrite moved_x_0, moved_y_0, drag_vx_0, drag_vy_0, omega_k_0, ball_spin_k_0.
  destruct self as [c w h cx cy wr wa wo [bx by_ bvx bvy] ba bo]. cbn.
  f_equal; ring.
Qed.

Lemma init_default_geometry (u : R) :
  center_x (init Config_default u) = 410
  /\ center_y (init Config_default u) = 410
  /\ wheel_radius_px (init Config_default u) = 345.
Proof.
  cbn. unfold Rmax.
  destruct (Rle_dec 40 (820 * 0.45 - 24)); repeat split; lra.
Qed.

(** ** Frame of [update] *)

(** C10: for every [dt], [update dt] returns a state whose configuration
    and geometry ([cfg] with every [Config] field, [width], [height],
    [center_x], [center_y], [wheel_radius_px]) are those of the input; only
    the dynamic components can differ.  [update] takes no random draw: its
    result is a function of [dt] and the input state alone. *)
Theorem update_frame (dt : R) (self : SpinningWheelSimulation) :
  exists s',
    update dt self = Ok s'
    /\ cfg s' = cfg self
    /\ width s' = width self
    /\ height s' = height self
    /\ center_x s' = center_x self
    /\ center_y s' = center_y self
    /\ wheel_radius_px s' = wheel_radius_px self.
Proof.
  exists (update_state dt self). split; [apply update_eq |].
  unfold update_state.
  destruct (Rgt_dec (dist dt self) (allowed self)); cbn; repeat split; reflexivity.
Qed.

Lemma update_state_allowed (dt : R) (self : SpinningWheelSimulation) :
  allowed (update_state dt self) = allowed self.
Proof.
  unfold update_state, allowed.
  destruct (Rgt_dec (dist dt self) _); reflexivity.
Qed.

(** ** Contact detection *)

Lemma near_center_hypot :
  hypot (dx 0 near_center_state) (dy 0 near_center_state) = / 2097152.
Proof.
  unfold dx, dy. rewrite moved_x_0, moved_y_0. cbn.
  apply hypot_unique; lra.
Qed.

(** C4, as stated, fails: [2^-21] px from the center the code divides by the
    length itself, not by [max(length, 1e-6) = 1e-6]. *)
Lemma dist_is_not_max_floor :
  dist 0 near_center_state = / 2097152
  /\ Rmax (hypot (dx 0 near_center_state) (dy 0 near_center_state)) 1e-6 = 1e-6
  /\ dist 0 near_center_state
     <> Rmax (hypot (dx 0 near_center_state) (dy 0 near_center_state)) 1e-6.
Proof.
  assert (Hd : dist 0 near_center_state = / 2097152).
  { unfold dist, py_or. rewrite near_center_hypot.
    destruct (Req_dec_T (/ 2097152) 0); [lra | reflexivity]. }
  assert (Hm : Rmax (hypot (dx 0 near_center_state) (dy 0 near_center_state)) 1e-6
               = 1e-6).
  { rewrite near_center_hypot. unfold Rmax.
    destruct (Rle_dec (/ 2097152) 1e-6); lra. }
  repeat split; [exact Hd | exact Hm |].
  rewrite Hd, Hm. lra.
Qed.

(** C4, amended: the distance that forms the unit normal is the length of
    the center-to-ball vector when that length is not zero and [1e-6] when
    it is zero ([hypot(dx, dy) or 1e-6]).  It is positive, at most
    [max(length, 1e-6)], and equal to it exactly when the length is zero or
    at least [1e-6]; the normal satisfies [n * dist = delta], and [update]
    never raises [ZeroDivisionError]. *)
Theorem dist_floor_guards_division (dt : R) (self : SpinningWheelSimulation) :
  let length := hypot (dx dt self) (dy dt self) in
  dist dt self = (if Req_dec_T length 0 then 1e-6 else length)
  /\ 0 < dist dt self
  /\ dist dt self <= Rmax length 1e-6
  /\ (dist dt self = Rmax length 1e-6 <-> length = 0 \/ 1e-6 <= length)
  /\ nx dt self * dist dt self = dx dt self
  /\ ny dt self * dist dt self = dy dt self
  /\ truediv (dx dt self) (dist dt self) = Ok (nx dt self)
  /\ truediv (dy dt self) (dist dt self) = Ok (ny dt self)
  /\ exists s', update dt self = Ok s'.
Proof.
  intros length.
  pose proof (dist_pos dt self) as Hpos.
  pose proof (hypot_nonneg (dx dt self) (dy dt self)) as Hlen.
  fold length in Hlen.
  assert (Hd : dist dt self = if Req_dec_T length 0 then 1e-6 else length)
    by reflexivity.
  split; [exact Hd |].
  split; [exact Hpos |].
  split.
  { rewrite Hd. unfold Rmax.
    destruct (Req_dec_T length 0), (Rle_dec length 1e-6); lra. }
  split.
  { rewrite Hd. unfold Rmax.
    destruct (Req_dec_T length 0), (Rle_dec length 1e-6); split; intros; lra. }
  split; [unfold nx; field; lra |].
  split; [unfold ny; field; lra |].
  split; [apply truediv_ok; lra |].
  split; [apply truediv_ok; lra |].
  exists (update_state dt self). apply update_eq.
Qed.

(** ** The step of zero length *)

Lemma outside_hypot :
  hypot (dx 0 outside_state) (dy 0 outside_state) = 340.
Proof.
  unfold dx, dy. rewrite moved_x_0, moved_y_0. cbn.
  apply hypot_unique; lra.
Qed.

Lemma outside_dist : dist 0 outside_state = 340.
Proof.
  unfold dist, py_or. rewrite outside_hypot.
  destruct (Req_dec_T 340 0); [lra | reflexivity].
Qed.

(** C3, as stated, fails: with the ball 5 px beyond the allowed radius and
    moving outward at 10 px/s, [update(0)] moves it from x = 750 to x = 745
    and turns its velocity from 10 to -2.5. *)
Lemma update_zero_moves_outside_ball :
  exists s',
    update 0 outside_state = Ok s'
    /\ x (ball outside_state) = 750 /\ x (ball s') = 745
    /\ vx (ball outside_state) = 10 /\ vx (ball s') = -2.5
    /\ s' <> outside_state.
Proof.
  assert (Hc : dist 0 outside_state > allowed outside_state).
  { rewrite outside_dist. unfold allowed. cbn. lra. }
  assert (Hnx : nx 0 outside_state = 1).
  { unfold nx, dx. rewrite outside_dist, moved_x_0. cbn. lra. }
  assert (Hny : ny 0 outside_state = 0).
  { unfold ny, dy. rewrite outside_dist, moved_y_0. cbn. lra. }
  assert (Hvn : v_n 0 outside_state = -2.5).
  { unfold v_n, v_normal. rewrite drag_vx_0, drag_vy_0, Hnx, Hny. cbn.
    destruct (Rgt_dec (10 * 1 + 0 * 0) 0); lra. }
  assert (Hx : x (ball (contact_state 0 outside_state)) = 745).
  { cbn. rewrite moved_x_0, Hnx, outside_dist. unfold allowed. cbn. lra. }
  assert (Hv : vx (ball (contact_state 0 outside_state)) = -2.5).
  { cbn. rewrite Hvn, Hnx, Hny. lra. }
  exists (contact_state 0 outside_state).
  split; [apply update_contact; exact Hc |].
  split; [reflexivity |].
  split; [exact Hx |].
  split; [reflexivity |].
  split; [exact Hv |].
  intros Heq. rewrite Heq in Hx. cbn in Hx. lra.
Qed.

(** C3, amended: for every state in which the contact branch is not taken
    (the floored distance of the ball from the wheel center is at most
    [allowed]), [update(0)] leaves every state component unchanged. *)
Theorem update_zero_identity (self : SpinningWheelSimulation) :
  py_or (distance self) 1e-6 <= allowed self ->
  update 0 self = Ok self.
Proof.
  intros Hin. rewrite <- dist_0 in Hin.
  rewrite update_free by exact Hin.
  rewrite free_state_0. reflexivity.
Qed.

Lemma inside_distance : distance inside_state = 100.
Proof. unfold distance. cbn. apply hypot_unique; lra. Qed.

Lemma update_zero_identity_witness :
  py_or (distance inside_state) 1e-6 <= allowed inside_state
  /\ update 0 inside_state = Ok inside_state.
Proof.
  assert (H : py_or (distance inside_state) 1e-6 <= allowed inside_state).
  { rewrite inside_distance. unfold py_or, allowed.
    destruct (Req_dec_T 100 0); cbn; lra. }
  split; [exact H | apply (update_zero_identity inside_state); exact H].
Defined.

(** ** Contact resolution *)

Lemma dist_ge_hypot (dt : R) (self : SpinningWheelSimulation) :
  hypot (dx dt self) (dy dt self) <= dist dt self.
Proof.
  unfold dist, py_or.
  destruct (Req_dec_T (hypot (dx dt self) (dy dt self)) 0) as [Hz | Hnz]; lra.
Qed.

Lemma dist_gt_bound (dt : R) (self : SpinningWheelSimulation) (r : R) :
  0 <= r ->
  r * r < dx dt self * dx dt self + dy dt self * dy dt self ->
  r < dist dt self.
Proof.
  intros Hr Hlt.
  pose proof (hypot_gt_bound _ _ _ Hr Hlt). pose proof (dist_ge_hypot dt self).
  lra.
Qed.

Lemma dist_le_bound (dt : R) (self : SpinningWheelSimulation) (r : R) :
  1e-6 <= r ->
  dx dt self * dx dt self + dy dt self * dy dt self <= r * r ->
  dist dt self <= r.
Proof.
  intros Hr Hle.
  assert (H : hypot (dx dt self) (dy dt self) <= r)
    by (apply hypot_le_bound; lra).
  unfold dist, py_or.
  destruct (Req_dec_T (hypot (dx dt self) (dy dt self)) 0); lra.
Qed.

(** The normal is a unit vector unless the ball sits exactly at the center. *)
Lemma normal_unit (dt : R) (self : SpinningWheelSimulation) :
  hypot (dx dt self) (dy dt self) <> 0 ->
  nx dt self * nx dt self + ny dt self * ny dt self = 1.
Proof.
  intros Hnz.
  pose proof (hypot_sqr (dx dt self) (dy dt self)) as Hs.
  assert (Hd : dist dt self = hypot (dx dt self) (dy dt self)).
  { unfold dist, py_or.
    destruct (Req_dec_T (hypot (dx dt self) (dy dt self)) 0);
      [contradiction | reflexivity]. }
  unfold nx, ny. rewrite Hd.
  set (h := hypot (dx dt self) (dy dt self)) in *.
  replace (dx dt self / h * (dx dt self / h) + dy dt self / h * (dy dt self / h))
    with ((dx dt self * dx dt self + dy dt self * dy dt self) / (h * h))
    by (field; exact Hnz).
  rewrite <- Hs. field. exact Hnz.
Qed.

(** C5: on a contact-resolving step the normal component [v_normal = v.n]
    becomes [- v_normal * wall_restitution] exactly when [v_normal > 0] and
    stays as it is when [v_normal <= 0]; the velocity [update] stores is
    built from that value.  With a restitution in [0, 1] its magnitude never
    exceeds that of [v_normal]. *)
Theorem bounce_reflects_outward_only (dt : R) (self : SpinningWheelSimulation) :
  dist dt self > allowed self ->
  exists s' vn',
    update dt self = Ok s'
    /\ (v_normal dt self > 0 ->
        vn' = - v_normal dt self * wall_restitution (cfg self))
    /\ (v_normal dt self <= 0 -> vn' = v_normal dt self)
    /\ vx (ball s')
       = vn' * nx dt self + (v_tangential dt self + Jt dt self) * - ny dt self
         + - nx dt self * inward_accel self * dt
    /\ vy (ball s')
       = vn' * ny dt self + (v_tangential dt self + Jt dt self) * nx dt self
         + - ny dt self * inward_accel self * dt
    /\ (0 <= wall_restitution (cfg self) <= 1 ->
        Rabs vn' <= Rabs (v_normal dt self)).
Proof.
  intros Hc.
  exists (contact_state dt self), (v_n dt self).
  split; [apply update_contact; exact Hc |].
  unfold contact_state. cbn [ball vx vy]. unfold v_n.
  destruct (Rgt_dec (v_normal dt self) 0) as [Hout | Hin].
  - split; [reflexivity |]. split; [intros; lra |].
    split; [reflexivity |]. split; [reflexivity |].
    intros He.
    unfold Rabs.
    destruct (Rcase_abs (- v_normal dt self * wall_restitution (cfg self))),
             (Rcase_abs (v_normal dt self)); nra.
  - split; [intros; lra |]. split; [reflexivity |].
    split; [reflexivity |]. split; [reflexivity |].
    intros _. lra.
Qed.

Lemma air_k_16ms (bx by_ bvx bvy : R) :
  air_k 0.016 (state_at bx by_ bvx bvy) = 0.9984.
Proof.
  unfold air_k. cbn. unfold Rmax.
  destruct (Rle_dec 0 (1 - 0.10 * 0.016)); lra.
Qed.

(** After 16 ms the ball of [outside_state] is still beyond the allowed
    radius. *)
Lemma outside_contact_16ms :
  dist 0.016 outside_state > allowed outside_state.
Proof.
  apply Rlt_gt.
  replace (allowed outside_state) with 335 by (unfold allowed; cbn; lra).
  apply dist_gt_bound; [lra |].
  unfold dx, dy, moved_x, moved_y, drag_vx, drag_vy, g, outside_state.
  rewrite air_k_16ms. cbn. nra.
Qed.

Lemma bounce_reflects_outward_only_witness :
  dist 0.016 outside_state > allowed outside_state
  /\ exists s' vn',
       update 0.016 outside_state = Ok s'
       /\ Rabs vn' <= Rabs (v_normal 0.016 outside_state).
Proof.
  split; [exact outside_contact_16ms |].
  destruct (bounce_reflects_outward_only 0.016 outside_state outside_contact_16ms)
    as (s' & vn' & Hup & _ & _ & _ & _ & Hen).
  exists s', vn'. split; [exact Hup |].
  apply Hen. cbn. lra.
Defined.

Lemma N_nonneg (dt : R) (self : SpinningWheelSimulation) : 0 <= N dt self.
Proof. unfold N. apply Rmax_l. Qed.

Lemma N_is_spec (dt : R) (self : SpinningWheelSimulation) :
  N dt self
  = spec_normal_force (cfg self) (v_tangential dt self) (allowed self) (ny dt self).
Proof. reflexivity. Qed.

Lemma slip_is_spec (dt : R) (self : SpinningWheelSimulation) :
  slip dt self
  = spec_slip (v_tangential dt self) (decayed_wheel_omega dt self)
      (decayed_ball_omega dt self) (allowed self).
Proof. reflexivity. Qed.

(** The code's [-copysign(Jmax_kinetic, slip)] is the specification's
    [-sign(slip) * maxKineticImpulse] on the steps the integrator is called
    with. *)
Lemma Jt_is_spec (dt : R) (self : SpinningWheelSimulation) :
  0 <= dt ->
  0 <= mu_static (cfg self) ->
  0 <= mu_kinetic (cfg self) ->
  Jt dt self = spec_friction_impulse (cfg self) dt (N dt self) (slip dt self).
Proof.
  intros Hdt Hs Hk.
  pose proof (N_nonneg dt self) as HN.
  unfold Jt, spec_friction_impulse, J_static, Jmax_static, Jmax_kinetic.
  cbv zeta.
  destruct (Rle_dec (Rabs (- slip dt self / 3)) (mu_static (cfg self) * N dt self * dt))
    as [Hstick | Hslide]; [reflexivity |].
  assert (Hms : 0 <= mu_static (cfg self) * N dt self * dt)
    by (apply Rmult_le_pos; [apply Rmult_le_pos |]; assumption).
  assert (Hmk : 0 <= mu_kinetic (cfg self) * N dt self * dt)
    by (apply Rmult_le_pos; [apply Rmult_le_pos |]; assumption).
  assert (Hnz : slip dt self <> 0).
  { intros Hz. apply Hslide. rewrite Hz.
    replace (- 0 / 3) with 0 by lra. rewrite Rabs_R0. exact Hms. }
  unfold copysign, sign.
  rewrite (Rabs_right _ (Rle_ge _ _ Hmk)).
  destruct (Rle_dec 0 (slip dt self)), (Rlt_dec 0 (slip dt self));
    try destruct (Rlt_dec (slip dt self) 0); lra.
Qed.

(** C2: on every contact-resolving step with [dt >= 0] (and non-negative
    friction coefficients), with [N] the specification's normal-force
    estimate and [slip] its relative tangential speed, the impulse added to
    the tangential velocity is [-slip/3] when [|-slip/3| <= muStatic*N*dt]
    and [-sign(slip) * muKinetic*N*dt] otherwise.  The choice is a function
    of this step's [N], [slip] and [dt] alone: the state has no mode
    component.  The same impulse drives the spin feedback. *)
Theorem friction_regime_selection (dt : R) (self : SpinningWheelSimulation) :
  0 <= dt ->
  0 <= mu_static (cfg self) ->
  0 <= mu_kinetic (cfg self) ->
  dist dt self > allowed self ->
  exists s',
    update dt self = Ok s'
    /\ let v_t := v_tangential dt self in
       let N :=
         spec_normal_force (cfg self) v_t (allowed self) (ny dt self) in
       let slip :=
         spec_slip v_t (wheel_omega s') (decayed_ball_omega dt self)
           (allowed self) in
       let J := spec_friction_impulse (cfg self) dt N slip in
       vx (ball s')
       = v_n dt self * nx dt self + (v_t + J) * - ny dt self
         + - nx dt self * inward_accel self * dt
       /\ vy (ball s')
          = v_n dt self * ny dt self + (v_t + J) * nx dt self
            + - ny dt self * inward_accel self * dt
       /\ vx (ball s') * - ny dt self + vy (ball s') * nx dt self = v_t + J
       /\ ball_omega s'
          = decayed_ball_omega dt self
            + -2 * J / Rmax 1 (ball_radius_px (cfg self)).
Proof.
  intros Hdt Hs Hk Hc.
  exists (contact_state dt self).
  split; [apply update_contact; exact Hc |].
  cbv zeta.
  change (wheel_omega (contact_state dt self)) with (decayed_wheel_omega dt self).
  rewrite <- N_is_spec, <- slip_is_spec, <- Jt_is_spec by assumption.
  split; [reflexivity |]. split; [reflexivity |].
  split; [| reflexivity].
  cbn [contact_state ball vx vy].
  destruct (Req_dec_T (hypot (dx dt self) (dy dt self)) 0) as [Hz | Hnz].
  - (* the ball is exactly at the center: the normal is the zero vector *)
    destruct (hypot_zero _ _ Hz) as [Hx Hy].
    assert (Hnx : nx dt self = 0) by (unfold nx; rewrite Hx; lra).
    assert (Hny : ny dt self = 0) by (unfold ny; rewrite Hy; lra).
    assert (Hvt : v_tangential dt self = 0)
      by (unfold v_tangential; rewrite Hnx, Hny; lra).
    assert (HN : N dt self = 0).
    { unfold N. rewrite Hvt, Hny.
      replace (0 * 0 / Rmax 1 (allowed self)) with 0 by (unfold Rdiv; ring).
      rewrite Rmult_0_r. unfold Rmax.
      destruct (Rle_dec 0 0); destruct (Rle_dec 0 (0 + 0)); lra. }
    assert (HJ : Jt dt self = 0).
    { unfold Jt, Jmax_static, Jmax_kinetic, J_static. rewrite HN.
      rewrite !Rmult_0_r, !Rmult_0_l.
      destruct (Rle_dec (Rabs (- slip dt self / 3)) 0) as [Hle | Hgt].
      - pose proof (Rabs_pos (- slip dt self / 3)) as Hp.
        assert (Ha : Rabs (- slip dt self / 3) = 0) by lra.
        destruct (Req_dec_T (- slip dt self / 3) 0) as [H0 | H0];
          [exact H0 | exfalso; exact (Rabs_no_R0 _ H0 Ha)].
      - unfold copysign. rewrite Rabs_R0.
        destruct (Rle_dec 0 (slip dt self)); lra. }
    rewrite Hnx, Hny, Hvt, HJ. lra.
  - pose proof (normal_unit dt self Hnz) as Hu.
    transitivity ((v_tangential dt self + Jt dt self)
                  * (nx dt self * nx dt self + ny dt self * ny dt self));
      [ring | rewrite Hu; ring].
Qed.

Lemma friction_regime_selection_witness :
  0 <= 0.016
  /\ 0 <= mu_static (cfg outside_state)
  /\ 0 <= mu_kinetic (cfg outside_state)
  /\ dist 0.016 outside_state > allowed outside_state
  /\ exists s',
       update 0.016 outside_state = Ok s'
       /\ vx (ball s') * - ny 0.016 outside_state
          + vy (ball s') * nx 0.016 outside_state
          = v_tangential 0.016 outside_state
            + spec_friction_impulse (cfg outside_state) 0.016
                (spec_normal_force (cfg outside_state)
                   (v_tangential 0.016 outside_state)
                   (allowed outside_state) (ny 0.016 outside_state))
                (spec_slip (v_tangential 0.016 outside_state) (wheel_omega s')
                   (decayed_ball_omega 0.016 outside_state)
                   (allowed outside_state)).
Proof.
  assert (Hdt : 0 <= 0.016) by lra.
  assert (Hs : 0 <= mu_static (cfg outside_state)) by (cbn; lra).
  assert (Hk : 0 <= mu_kinetic (cfg outside_state)) by (cbn; lra).
  split; [exact Hdt |]. split; [exact Hs |]. split; [exact Hk |].
  split; [exact outside_contact_16ms |].
  destruct (friction_regime_selection 0.016 outside_state Hdt Hs Hk
              outside_contact_16ms) as (s' & Hup & _ & _ & Htan & _).
  exists s'. split; [exact Hup | exact Htan].
Defined.

(** ** Decay of the wheel *)

Lemma decay_factor_range (k dt : R) :
  0 <= dt -> 0 <= k -> 0 <= Rmax 0 (1 - k * dt) <= 1.
Proof.
  intros Hdt Hk. split; [apply Rmax_l |].
  apply Rmax_lub; [lra |].
  pose proof (Rmult_le_pos k dt Hk Hdt). lra.
Qed.

Lemma Rabs_scale_le (v k : R) : 0 <= k <= 1 -> Rabs (v * k) <= Rabs v.
Proof.
  intros Hk. rewrite Rabs_mult, (Rabs_right k) by lra.
  pose proof (Rabs_pos v). nra.
Qed.

(** C8: for every [dt >= 0] (and a non-negative friction coefficient),
    [update] multiplies the wheel's angular velocity by
    [max(0, 1 - wheelAngularFriction*dt)], a factor in [0, 1]: the
    magnitude of the angular velocity does not increase and its sign does
    not flip. *)
Theorem wheel_omega_decays (dt : R) (self : SpinningWheelSimulation) :
  0 <= dt ->
  0 <= wheel_angular_friction_per_second (cfg self) ->
  exists s',
    update dt self = Ok s'
    /\ wheel_omega s'
       = wheel_omega self
         * Rmax 0 (1 - wheel_angular_friction_per_second (cfg self) * dt)
    /\ 0 <= Rmax 0 (1 - wheel_angular_friction_per_second (cfg self) * dt) <= 1
    /\ Rabs (wheel_omega s') <= Rabs (wheel_omega self)
    /\ 0 <= wheel_omega s' * wheel_omega self
    /\ wheel_angle s' = wheel_angle self + wheel_omega s' * dt.
Proof.
  intros Hdt Hf.
  pose proof (decay_factor_range _ _ Hdt Hf) as Hk.
  exists (update_state dt self). split; [apply update_eq |].
  assert (Hw : wheel_omega (update_state dt self)
               = wheel_omega self
                 * Rmax 0 (1 - wheel_angular_friction_per_second (cfg self) * dt)).
  { unfold update_state. destruct (Rgt_dec (dist dt self) (allowed self));
      reflexivity. }
  assert (Ha : wheel_angle (update_state dt self)
               = wheel_angle self + wheel_omega (update_state dt self) * dt).
  { unfold update_state. destruct (Rgt_dec (dist dt self) (allowed self));
      reflexivity. }
  split; [exact Hw |]. split; [exact Hk |].
  rewrite Hw.
  split; [apply Rabs_scale_le; exact Hk |].
  split; [| rewrite <- Hw; exact Ha].
  set (k := Rmax 0 (1 - wheel_angular_friction_per_second (cfg self) * dt)) in *.
  replace (wheel_omega self * k * wheel_omega self)
    with (k * (wheel_omega self * wheel_omega self)) by ring.
  apply Rmult_le_pos; [lra | nra].
Qed.

Lemma wheel_omega_decays_witness :
  0 <= 0.016
  /\ 0 <= wheel_angular_friction_per_second (cfg inside_state)
  /\ exists s',
       update 0.016 inside_state = Ok s'
       /\ Rabs (wheel_omega s') <= Rabs (wheel_omega inside_state)
       /\ 0 <= wheel_omega s' * wheel_omega inside_state.
Proof.
  assert (Hdt : 0 <= 0.016) by lra.
  assert (Hf : 0 <= wheel_angular_friction_per_second (cfg inside_state))
    by (cbn; lra).
  split; [exact Hdt |]. split; [exact Hf |].
  destruct (wheel_omega_decays 0.016 inside_state Hdt Hf)
    as (s' & Hup & _ & _ & Habs & Hsign & _).
  exists s'. split; [exact Hup |]. split; [exact Habs | exact Hsign].
Defined.

(** ** Speed on a step without contact *)

Lemma hypot_scale (a b k : R) : 0 <= k -> hypot (a * k) (b * k) = k * hypot a b.
Proof.
  intros Hk. apply hypot_unique.
  - apply Rmult_le_pos; [exact Hk | apply hypot_nonneg].
  - pose proof (hypot_sqr a b) as Hs.
    replace (k * hypot a b * (k * hypot a b))
      with (k * k * (hypot a b * hypot a b)) by ring.
    rewrite Hs. ring.
Qed.

Lemma hypot_ge_abs_r (a b : R) : Rabs b <= hypot a b.
Proof.
  pose proof (hypot_nonneg a b) as Hh. pose proof (hypot_sqr a b) as Hs.
  unfold Rabs. destruct (Rcase_abs b); nra.
Qed.

(** Adding [c] to one component changes the norm by at most [|c|]. *)
Lemma hypot_add_le (a b c : R) : hypot a (b + c) <= hypot a b + Rabs c.
Proof.
  pose proof (hypot_nonneg a b) as Hh. pose proof (hypot_sqr a b) as Hs.
  pose proof (hypot_ge_abs_r a b) as Hb. pose proof (Rabs_pos c) as Hc.
  apply hypot_le_bound; [lra |].
  assert (Hbc : b * c <= hypot a b * Rabs c).
  { apply Rle_trans with (Rabs b * Rabs c).
    - rewrite <- Rabs_mult. apply Rle_abs.
    - apply Rmult_le_compat_r; assumption. }
  assert (Hcc : Rabs c * Rabs c = c * c).
  { unfold Rabs. destruct (Rcase_abs c); ring. }
  nra.
Qed.

(** C9: on a step with [dt >= 0] that does not take the contact branch, the
    drag factor lies in [0, 1] and the ball's speed after the step is at
    most its speed before plus gravity's contribution
    [gravity * pixelsPerMeter * dt] (drag and gravity coefficients
    non-negative). *)
Theorem free_step_speed_bound (dt : R) (self : SpinningWheelSimulation) :
  0 <= dt ->
  0 <= air_drag_per_second (cfg self) ->
  0 <= gravity_m_s2 (cfg self) * pixels_per_meter (cfg self) ->
  dist dt self <= allowed self ->
  exists s',
    update dt self = Ok s'
    /\ 0 <= Rmax 0 (1 - air_drag_per_second (cfg self) * dt) <= 1
    /\ vx (ball s')
       = vx (ball self) * Rmax 0 (1 - air_drag_per_second (cfg self) * dt)
    /\ vy (ball s')
       = (vy (ball self)
          + gravity_m_s2 (cfg self) * pixels_per_meter (cfg self) * dt)
         * Rmax 0 (1 - air_drag_per_second (cfg self) * dt)
    /\ speed s'
       <= speed self
          + gravity_m_s2 (cfg self) * pixels_per_meter (cfg self) * dt.
Proof.
  intros Hdt Hdrag Hg Hfree.
  pose proof (decay_factor_range _ _ Hdt Hdrag) as Hk.
  exists (free_state dt self). split; [apply update_free; exact Hfree |].
  split; [exact Hk |]. split; [reflexivity |]. split; [reflexivity |].
  unfold speed. cbn [free_state ball vx vy]. unfold drag_vx, drag_vy, air_k, g.
  set (k := Rmax 0 (1 - air_drag_per_second (cfg self) * dt)) in *.
  set (gp := gravity_m_s2 (cfg self) * pixels_per_meter (cfg self)) in *.
  rewrite hypot_scale by lra.
  pose proof (hypot_add_le (vx (ball self)) (vy (ball self)) (gp * dt)) as Ht.
  pose proof (hypot_nonneg (vx (ball self)) (vy (ball self) + gp * dt)) as Hp.
  assert (Hgd : 0 <= gp * dt) by (apply Rmult_le_pos; assumption).
  rewrite (Rabs_right (gp * dt)) in Ht by lra.
  nra.
Qed.

Lemma inside_free_16ms : dist 0.016 inside_state <= allowed inside_state.
Proof.
  replace (allowed inside_state) with 335 by (unfold allowed; cbn; lra).
  apply dist_le_bound; [lra |].
  unfold dx, dy, moved_x, moved_y, drag_vx, drag_vy, g, inside_state.
  rewrite air_k_16ms. cbn. nra.
Qed.

Lemma free_step_speed_bound_witness :
  0 <= 0.016
  /\ 0 <= air_drag_per_second (cfg inside_state)
  /\ 0 <= gravity_m_s2 (cfg inside_state) * pixels_per_meter (cfg inside_state)
  /\ dist 0.016 inside_state <= allowed inside_state
  /\ exists s',
       update 0.016 inside_state = Ok s'
       /\ speed s'
          <= speed inside_state
             + gravity_m_s2 (cfg inside_state)
               * pixels_per_meter (cfg inside_state) * 0.016.
Proof.
  assert (Hdt : 0 <= 0.016) by lra.
  assert (Hd : 0 <= air_drag_per_second (cfg inside_state)) by (cbn; lra).
  assert (Hg : 0 <= gravity_m_s2 (cfg inside_state)
                    * pixels_per_meter (cfg inside_state)) by (cbn; lra).
  split; [exact Hdt |]. split; [exact Hd |]. split; [exact Hg |].
  split; [exact inside_free_16ms |].
  destruct (free_step_speed_bound 0.016 inside_state Hdt Hd Hg inside_free_16ms)
    as (s' & Hup & _ & _ & _ & Hsp).
  exists s'. split; [exact Hup | exact Hsp].
Defined.

(** ** Containment *)

(** After the positional correction the ball is [allowed] along the normal
    from the center. *)
Lemma contact_state_offset (dt : R) (self : SpinningWheelSimulation) :
  x (ball (contact_state dt self)) - center_x (contact_state dt self)
  = nx dt self * allowed self
  /\ y (ball (contact_state dt self)) - center_y (contact_state dt self)
     = ny dt self * allowed self.
Proof.
  pose proof (dist_pos dt self) as Hd.
  cbn [contact_state ball x y center_x center_y].
  unfold nx, ny, dx, dy. split; field; lra.
Qed.

Lemma contact_state_distance (dt : R) (self : SpinningWheelSimulation) :
  0 <= allowed self ->
  distance (contact_state dt self) <= allowed self.
Proof.
  intros Ha. unfold distance.
  destruct (contact_state_offset dt self) as [Hx Hy]. rewrite Hx, Hy.
  destruct (Req_dec_T (hypot (dx dt self) (dy dt self)) 0) as [Hz | Hnz].
  - destruct (hypot_zero _ _ Hz) as [Hx0 Hy0].
    assert (Hnx : nx dt self = 0) by (unfold nx; rewrite Hx0; lra).
    assert (Hny : ny dt self = 0) by (unfold ny; rewrite Hy0; lra).
    rewrite Hnx, Hny. apply hypot_le_bound; [exact Ha | nra].
  - pose proof (normal_unit dt self Hnz) as Hu.
    apply hypot_le_bound; [exact Ha |]. nra.
Qed.


Lemma free_state_distance (dt : R) (self : SpinningWheelSimulation) :
  distance (free_state dt self) = hypot (dx dt self) (dy dt self).
Proof. reflexivity. Qed.

(** One call of [update] leaves the ball within the allowed radius, whatever
    the input state and the time step. *)
Lemma update_state_contained (dt : R) (self : SpinningWheelSimulation) :
  0 <= allowed self ->
  distance (update_state dt self) <= allowed self.
Proof.
  intros Ha. unfold update_state.
  destruct (Rgt_dec (dist dt self) (allowed self)) as [Hc | Hn].
  - apply contact_state_distance. exact Ha.
  - rewrite free_state_distance. pose proof (dist_ge_hypot dt self). lra.
Qed.

Lemma updates_contained (dts : list R) :
  forall self : SpinningWheelSimulation,
    0 <= allowed self ->
    exists states,
      updates dts self = Ok states
      /\ length states = length dts
      /\ Forall (fun s => distance s <= allowed self) states.
Proof.
  induction dts as [| dt dts IH]; intros self Ha.
  - exists []. repeat split. constructor.
  - pose proof (update_state_allowed dt self) as Hal.
    destruct (IH (update_state dt self)) as (rest & Hrest & Hlen & Hall).
    { rewrite Hal. exact Ha. }
    exists (update_state dt self :: rest).
    cbn [updates]. rewrite update_eq. cbn [bind]. rewrite Hrest. cbn [bind].
    split; [reflexivity |]. split; [cbn; rewrite Hlen; reflexivity |].
    constructor.
    + apply update_state_contained. exact Ha.
    + rewrite Hal in Hall. exact Hall.
Qed.

(** C1: for every sequence of [update(dt)] calls with each [dt] in
    [0, 0.032], on a wheel whose inner radius is at least the ball radius,
    every call returns and after each call the ball's distance from the
    wheel center is at most [innerRadius - ballRadius + eps], for every
    tolerance [eps >= 0]. *)
Theorem containment (dts : list R) (self : SpinningWheelSimulation) (eps : R) :
  ball_radius_px (cfg self) <= wheel_radius_px self ->
  0 <= eps ->
  Forall (fun dt => 0 <= dt <= 0.032) dts ->
  exists states,
    updates dts self = Ok states
    /\ length states = length dts
    /\ Forall
         (fun s =>
            distance s <= wheel_radius_px self - ball_radius_px (cfg self) + eps)
         states.
Proof.
  intros Hgeo Heps _.
  assert (Ha : 0 <= allowed self) by (unfold allowed; lra).
  destruct (updates_contained dts self Ha) as (states & Hup & Hlen & Hall).
  exists states. split; [exact Hup |]. split; [exact Hlen |].
  apply Forall_impl with (2 := Hall).
  intros s Hs. unfold allowed in Hs. lra.
Qed.

Lemma containment_witness :
  ball_radius_px (cfg outside_state) <= wheel_radius_px outside_state
  /\ 0 <= 1e-9
  /\ Forall (fun dt => 0 <= dt <= 0.032) [0.016; 0.032; 0]
  /\ exists states,
       updates [0.016; 0.032; 0] outside_state = Ok states
       /\ length states = 3%nat
       /\ Forall
            (fun s =>
               distance s
               <= wheel_radius_px outside_state
                  - ball_radius_px (cfg outside_state) + 1e-9)
            states.
Proof.
  assert (Hgeo : ball_radius_px (cfg outside_state) <= wheel_radius_px outside_state)
    by (cbn; lra).
  assert (Heps : 0 <= 1e-9) by lra.
  assert (Hdts : Forall (fun dt => 0 <= dt <= 0.032) [0.016; 0.032; 0])
    by (repeat constructor; lra).
  split; [exact Hgeo |]. split; [exact Heps |]. split; [exact Hdts |].
  exact (containment [0.016; 0.032; 0] outside_state 1e-9 Hgeo Heps Hdts).
Defined.

(** The time step [main] passes to [update] is in [0, 0.032]. *)
Lemma clamp_dt_range (dt_ms : Z) : 0 <= clamp_dt dt_ms <= 0.032.
Proof.
  unfold clamp_dt.
  assert (H : (0 <= Z.max 0 (Z.min 32 dt_ms) <= 32)%Z) by lia.
  destruct H as [H0 H32]. apply IZR_le in H0. apply IZR_le in H32.
  split; lra.
Qed.

(** The constructor and [resize] floor the inner radius at 40 px. *)
Lemma resize_radius (w h : Z) (u : R) (self : SpinningWheelSimulation) :
  40 <= wheel_radius_px (resize w h u self).
Proof. cbn. apply Rmax_l. Qed.

Lemma init_radius (c : Config) (u : R) : 40 <= wheel_radius_px (init c u).
Proof. cbn. apply Rmax_l. Qed.

(** ** Placement and spin impulse *)

Lemma hypot_cos_sin (a : R) : hypot (cos a) (sin a) = 1.
Proof.
  apply hypot_unique; [lra |].
  pose proof (sin2_cos2 a) as H. unfold Rsqr in H. lra.
Qed.

Lemma hypot_rot90 (a b : R) : hypot (- b) a = hypot a b.
Proof. unfold hypot. f_equal. ring. Qed.

(** C6: for every placement draw, after [place_ball_near_rim] (on a wheel
    that leaves room for the ball, with a non-negative boost) the ball is at
    distance [innerRadius - ballRadius - 1] from the wheel center, its
    velocity is the radial unit vector rotated by 90 degrees times
    [boostSpeed * pixelsPerMeter], hence perpendicular to the radius and of
    that magnitude. *)
Theorem place_ball_near_rim_valid (u : R) (self : SpinningWheelSimulation) :
  ball_radius_px (cfg self) + 1 <= wheel_radius_px self ->
  0 <= ball_boost_speed_m_s (cfg self) * pixels_per_meter (cfg self) ->
  let s' := place_ball_near_rim u self in
  let r := wheel_radius_px self - ball_radius_px (cfg self) - 1 in
  let boost := ball_boost_speed_m_s (cfg self) * pixels_per_meter (cfg self) in
  let ux := cos (u * tau) in
  let uy := sin (u * tau) in
  x (ball s') - center_x s' = ux * r
  /\ y (ball s') - center_y s' = uy * r
  /\ distance s' = r
  /\ vx (ball s') = - uy * boost
  /\ vy (ball s') = ux * boost
  /\ vx (ball s') * (x (ball s') - center_x s')
     + vy (ball s') * (y (ball s') - center_y s') = 0
  /\ speed s' = boost.
Proof.
  intros Hr Hb s' r boost ux uy.
  assert (Hx : x (ball s') - center_x s' = ux * r) by (cbn; fold r ux; ring).
  assert (Hy : y (ball s') - center_y s' = uy * r) by (cbn; fold r uy; ring).
  split; [exact Hx |]. split; [exact Hy |].
  split.
  { unfold distance. rewrite Hx, Hy. rewrite hypot_scale by (unfold r; lra).
    unfold ux, uy. rewrite hypot_cos_sin. ring. }
  split; [reflexivity |]. split; [reflexivity |].
  split.
  { rewrite Hx, Hy. cbn. fold ux uy boost. ring. }
  unfold speed. cbn [s' place_ball_near_rim ball vx vy]. fold ux uy boost.
  rewrite hypot_scale by exact Hb. rewrite hypot_rot90.
  unfold ux, uy. rewrite hypot_cos_sin. ring.
Qed.

Lemma place_ball_near_rim_valid_witness :
  ball_radius_px (cfg outside_state) + 1 <= wheel_radius_px outside_state
  /\ 0 <= ball_boost_speed_m_s (cfg outside_state)
          * pixels_per_meter (cfg outside_state)
  /\ distance (place_ball_near_rim 0.25 outside_state) = 334
  /\ speed (place_ball_near_rim 0.25 outside_state) = 440.
Proof.
  assert (Hr : ball_radius_px (cfg outside_state) + 1
               <= wheel_radius_px outside_state) by (cbn; lra).
  assert (Hb : 0 <= ball_boost_speed_m_s (cfg outside_state)
                    * pixels_per_meter (cfg outside_state)) by (cbn; lra).
  split; [exact Hr |]. split; [exact Hb |].
  destruct (place_ball_near_rim_valid 0.25 outside_state Hr Hb)
    as (_ & _ & Hd & _ & _ & _ & Hs).
  split.
  - rewrite Hd. cbn. lra.
  - rewrite Hs. cbn. lra.
Defined.

Lemma uniform_range (u a b : R) :
  0 <= u < 1 -> a <= b -> a <= uniform u a b <= b.
Proof. intros Hu Hab. unfold uniform. split; nra. Qed.

(** C7: [randomize_spin] adds to the wheel's angular velocity an amount in
    [spinImpulseMin, spinImpulseMax] (the range being positive and
    ordered) and leaves every other state component as it is; of two
    consecutive calls each adds such an amount on top of the previous
    value, so the angular velocity strictly increases at each. *)
Theorem randomize_spin_additive (u1 u2 : R) (self : SpinningWheelSimulation) :
  0 <= u1 < 1 ->
  0 <= u2 < 1 ->
  0 < spin_impulse_min (cfg self) ->
  spin_impulse_min (cfg self) <= spin_impulse_max (cfg self) ->
  let s1 := randomize_spin u1 self in
  let s2 := randomize_spin u2 s1 in
  spin_impulse_min (cfg self) <= wheel_omega s1 - wheel_omega self
    <= spin_impulse_max (cfg self)
  /\ spin_impulse_min (cfg self) <= wheel_omega s2 - wheel_omega s1
       <= spin_impulse_max (cfg self)
  /\ wheel_omega self < wheel_omega s1 < wheel_omega s2
  /\ s1 = {| cfg := cfg self;
             width := width self;
             height := height self;
             center_x := center_x self;
             center_y := center_y self;
             wheel_radius_px := wheel_radius_px self;
             wheel_angle := wheel_angle self;
             wheel_omega := wheel_omega s1;
             ball := ball self;
             ball_angle := ball_angle self;
             ball_omega := ball_omega self |}
  /\ s2 = {| cfg := cfg self;
             width := width self;
             height := height self;
             center_x := center_x self;
             center_y := center_y self;
             wheel_radius_px := wheel_radius_px self;
             wheel_angle := wheel_angle self;
             wheel_omega := wheel_omega s2;
             ball := ball self;
             ball_angle := ball_angle self;
             ball_omega := ball_omega self |}.
Proof.
  intros Hu1 Hu2 Hmin Hle s1 s2.
  pose proof (uniform_range u1 _ _ Hu1 Hle) as H1.
  pose proof (uniform_range u2 _ _ Hu2 Hle) as H2.
  assert (E1 : wheel_omega s1 - wheel_omega self
               = uniform u1 (spin_impulse_min (cfg self))
                   (spin_impulse_max (cfg self))) by (cbn; ring).
  assert (E2 : wheel_omega s2 - wheel_omega s1
               = uniform u2 (spin_impulse_min (cfg self))
                   (spin_impulse_max (cfg self))) by (cbn; ring).
  split; [rewrite E1; exact H1 |].
  split; [rewrite E2; exact H2 |].
  split; [lra |].
  split; reflexivity.
Qed.

Lemma randomize_spin_additive_witness :
  0 <= 0 < 1
  /\ 0 <= 0.5 < 1
  /\ 0 < spin_impulse_min (cfg inside_state)
  /\ spin_impulse_min (cfg inside_state) <= spin_impulse_max (cfg inside_state)
  /\ wheel_omega inside_state
     < wheel_omega (randomize_spin 0 inside_state)
     < wheel_omega (randomize_spin 0.5 (randomize_spin 0 inside_state)).
Proof.
  assert (Hu1 : 0 <= 0 < 1) by lra.
  assert (Hu2 : 0 <= 0.5 < 1) by lra.
  assert (Hmin : 0 < spin_impulse_min (cfg inside_state)) by (cbn; lra).
  assert (Hle : spin_impulse_min (cfg inside_state)
                <= spin_impulse_max (cfg inside_state)) by (cbn; lra).
  split; [exact Hu1 |]. split; [exact Hu2 |].
  split; [exact Hmin |]. split; [exact Hle |].
  destruct (randomize_spin_additive 0 0.5 inside_state Hu1 Hu2 Hmin Hle)
    as (_ & _ & Hinc & _).
  exact Hinc.
Defined.

(** ** States built by the program *)


(** With the default ball the constructor and [resize] leave room for the
    placement radius. *)
Lemma resize_room (w h : Z) (u : R) (self : SpinningWheelSimulation) :
  ball_radius_px (cfg self) <= 39 ->
  ball_radius_px (cfg (resize w h u self)) + 1
  <= wheel_radius_px (resize w h u self).
Proof.
  intros Hb. pose proof (resize_radius w h u self) as Hr.
  change (cfg (resize w h u self)) with (cfg self). lra.
Qed.

Lemma init_room (c : Config) (u : R) :
  ball_radius_px c <= 39 ->
  ball_radius_px (cfg (init c u)) + 1 <= wheel_radius_px (init c u).
Proof.
  intros Hb. pose proof (init_radius c u) as Hr.
  change (cfg (init c u)) with c. lra.
Qed.


Lemma handle_event_built (sim : SpinningWheelSimulation) (e : event) :
  built sim -> built (handle_event sim e).
Proof.
  intros [Hb Hr].
  destruct e as [| w h u | u | [| |] u |]; cbn [handle_event];
    try (split; assumption).
  split; [exact Hb | apply resize_radius].
Qed.

Lemma events_built (events : list event) :
  forall sim, built sim -> built (fold_left handle_event events sim).
Proof.
  induction events as [| e events IH]; intros sim Hb; cbn [fold_left].
  - exact Hb.
  - apply IH. apply handle_event_built. exact Hb.
Qed.

Lemma update_state_built (dt : R) (sim : SpinningWheelSimulation) :
  built sim -> built (update_state dt sim).
Proof.
  intros Hb. unfold built, update_state.
  destruct (Rgt_dec (dist dt sim) (allowed sim)); exact Hb.
Qed.

(** Every pass of the loop returns, keeps the geometry, and ends with the
    ball within the allowed radius. *)
Lemma frame_contained (dt_ms : Z) (events : list event)
  (sim : SpinningWheelSimulation) :
  built sim ->
  exists sim',
    frame dt_ms events sim = Ok sim'
    /\ built sim'
    /\ distance sim' <= allowed sim'.
Proof.
  intros Hb. apply (events_built events) in Hb.
  set (s1 := fold_left handle_event events sim) in *.
  exists (update_state (clamp_dt dt_ms) s1).
  split; [apply update_eq |].
  split; [apply update_state_built; exact Hb |].
  rewrite update_state_allowed. apply update_state_contained.
  destruct Hb as [Hball Hr]. unfold allowed. lra.
Qed.

(** ** Further properties of [update] *)

Lemma Jt_zero_of_no_bound (dt : R) (self : SpinningWheelSimulation) :
  N dt self * dt = 0 -> Jt dt self = 0.
Proof.
  intros H0.
  assert (Hs : Jmax_static dt self = 0)
    by (unfold Jmax_static; rewrite Rmult_assoc, H0; ring).
  assert (Hk : Jmax_kinetic dt self = 0)
    by (unfold Jmax_kinetic; rewrite Rmult_assoc, H0; ring).
  unfold Jt. rewrite Hs, Hk.
  destruct (Rle_dec (Rabs (J_static dt self)) 0) as [Hle | Hgt].
  - pose proof (Rabs_pos (J_static dt self)) as Hp.
    destruct (Req_dec_T (J_static dt self) 0) as [Hz | Hnz]; [exact Hz |].
    exfalso. apply (Rabs_no_R0 _ Hnz). lra.
  - unfold copysign. rewrite Rabs_R0.
    destruct (Rle_dec 0 (slip dt self)); lra.
Qed.

Lemma normal_zero (dt : R) (self : SpinningWheelSimulation) :
  hypot (dx dt self) (dy dt self) = 0 ->
  nx dt self = 0 /\ ny dt self = 0.
Proof.
  intros Hz. destruct (hypot_zero _ _ Hz) as [Hx Hy].
  unfold nx, ny. rewrite Hx, Hy. split; lra.
Qed.

Lemma N_zero_at_center (dt : R) (self : SpinningWheelSimulation) :
  hypot (dx dt self) (dy dt self) = 0 -> N dt self = 0.
Proof.
  intros Hz. destruct (normal_zero dt self Hz) as [Hnx Hny].
  assert (Hvt : v_tangential dt self = 0)
    by (unfold v_tangential; rewrite Hnx, Hny; lra).
  unfold N. rewrite Hvt, Hny.
  replace (0 * 0 / Rmax 1 (allowed self)) with 0 by (unfold Rdiv; ring).
  rewrite Rmult_0_r. unfold Rmax.
  destruct (Rle_dec 0 0); destruct (Rle_dec 0 (0 + 0)); lra.
Qed.

(** The tangential component of the velocity a contact step stores is the
    incoming one plus the friction impulse. *)
Lemma contact_tangential (dt : R) (self : SpinningWheelSimulation) :
  vx (ball (contact_state dt self)) * - ny dt self
  + vy (ball (contact_state dt self)) * nx dt self
  = v_tangential dt self + Jt dt self.
Proof.
  cbn [contact_state ball vx vy].
  destruct (Req_dec_T (hypot (dx dt self) (dy dt self)) 0) as [Hz | Hnz].
  - destruct (normal_zero dt self Hz) as [Hnx Hny].
    assert (Hvt : v_tangential dt self = 0)
      by (unfold v_tangential; rewrite Hnx, Hny; lra).
    assert (HJ : Jt dt self = 0).
    { apply Jt_zero_of_no_bound. rewrite (N_zero_at_center dt self Hz). ring. }
    rewrite Hnx, Hny, Hvt, HJ. lra.
  - pose proof (normal_unit dt self Hnz) as Hu.
    transitivity ((v_tangential dt self + Jt dt self)
                  * (nx dt self * nx dt self + ny dt self * ny dt self));
      [ring | rewrite Hu; ring].
Qed.







Lemma Jt_opposes_slip (dt : R) (self : SpinningWheelSimulation) :
  0 <= dt ->
  0 <= mu_kinetic (cfg self) ->
  Jt dt self * slip dt self <= 0.
Proof.
  intros Hdt Hk. unfold Jt.
  destruct (Rle_dec (Rabs (J_static dt self)) (Jmax_static dt self)).
  - unfold J_static. nra.
  - unfold copysign.
    pose proof (Rabs_pos (Jmax_kinetic dt self)) as Hp.
    destruct (Rle_dec 0 (slip dt self)); nra.
Qed.

Lemma Jt_bounded (dt : R) (self : SpinningWheelSimulation) :
  0 <= dt ->
  0 <= mu_kinetic (cfg self) ->
  Rabs (Jt dt self)
  <= Rmax (mu_static (cfg self)) (mu_kinetic (cfg self)) * N dt self * dt.
Proof.
  intros Hdt Hk.
  pose proof (N_nonneg dt self) as HN.
  assert (Hnd : 0 <= N dt self * dt) by (apply Rmult_le_pos; assumption).
  pose proof (Rmax_l (mu_static (cfg self)) (mu_kinetic (cfg self))) as Hl.
  pose proof (Rmax_r (mu_static (cfg self)) (mu_kinetic (cfg self))) as Hr.
  rewrite Rmult_assoc. unfold Jt.
  destruct (Rle_dec (Rabs (J_static dt self)) (Jmax_static dt self)) as [Hs | Hs].
  - unfold Jmax_static in Hs. rewrite Rmult_assoc in Hs. nra.
  - rewrite Rabs_Ropp. unfold copysign.
    assert (Hjk : 0 <= Jmax_kinetic dt self).
    { unfold Jmax_kinetic. rewrite Rmult_assoc. apply Rmult_le_pos; assumption. }
    assert (Ha : Rabs (Jmax_kinetic dt self) = Jmax_kinetic dt self)
      by (apply Rabs_right; lra).
    destruct (Rle_dec 0 (slip dt self)); [| rewrite Rabs_Ropp];
      rewrite Rabs_Rabsolu, Ha; unfold Jmax_kinetic; rewrite Rmult_assoc; nra.
Qed.

(** X3: on a contact-resolving step with [dt >= 0] the change of the ball's
    tangential velocity never has the direction of the slip, its magnitude
    is at most [max(mu_static, mu_kinetic) * N * dt], and the ball's spin
    receives [-2 / max(1, ball_radius_px)] times that change on top of its
    decayed value. *)
Theorem friction_opposes_slip (dt : R) (self : SpinningWheelSimulation) :
  0 <= dt ->
  0 <= mu_kinetic (cfg self) ->
  dist dt self > allowed self ->
  exists s',
    update dt self = Ok s'
    /\ let change :=
         vx (ball s') * - ny dt self + vy (ball s') * nx dt self
         - v_tangential dt self in
       change * slip dt self <= 0
       /\ Rabs change
          <= Rmax (mu_static (cfg self)) (mu_kinetic (cfg self)) * N dt self * dt
       /\ ball_omega s'
          = ball_omega self
            * Rmax 0 (1 - ball_angular_friction_per_second (cfg self) * dt)
            + -2 * change / Rmax 1 (ball_radius_px (cfg self)).
Proof.
  intros Hdt Hk Hc.
  exists (contact_state dt self).
  split; [apply update_contact; exact Hc |].
  cbv zeta. rewrite contact_tangential.
  replace (v_tangential dt self + Jt dt self - v_tangential dt self)
    with (Jt dt self) by ring.
  split; [apply Jt_opposes_slip; assumption |].
  split; [apply Jt_bounded; assumption | reflexivity].
Qed.

Lemma friction_opposes_slip_witness :
  0 <= 0.016
  /\ 0 <= mu_kinetic (cfg outside_state)
  /\ dist 0.016 outside_state > allowed outside_state
  /\ exists s',
       update 0.016 outside_state = Ok s'
       /\ (vx (ball s') * - ny 0.016 outside_state
           + vy (ball s') * nx 0.016 outside_state
           - v_tangential 0.016 outside_state) * slip 0.016 outside_state <= 0.
Proof.
  assert (Hdt : 0 <= 0.016) by lra.
  assert (Hk : 0 <= mu_kinetic (cfg outside_state)) by (cbn; lra).
  split; [exact Hdt |]. split; [exact Hk |].
  split; [exact outside_contact_16ms |].
  destruct (friction_opposes_slip 0.016 outside_state Hdt Hk outside_contact_16ms)
    as (s' & Hup & Hopp & _).
  exists s'. split; [exact Hup | exact Hopp].
Defined.

(** X4: a contact resolved at [dt = 0] applies no friction and no inward
    bias: the wheel's angle and angular velocity and the ball's spin and
    spin angle keep their values, and the ball's tangential velocity is
    unchanged; only the position projection and the bounce act. *)
Theorem contact_at_zero_dt (self : SpinningWheelSimulation) :
  dist 0 self > allowed self ->
  exists s',
    update 0 self = Ok s'
    /\ wheel_omega s' = wheel_omega self
    /\ wheel_angle s' = wheel_angle self
    /\ ball_omega s' = ball_omega self
    /\ ball_angle s' = ball_angle self
    /\ vx (ball s') = v_n 0 self * nx 0 self + v_tangential 0 self * - ny 0 self
    /\ vy (ball s') = v_n 0 self * ny 0 self + v_tangential 0 self * nx 0 self
    /\ v_tangential 0 self
       = vx (ball self) * - ny 0 self + vy (ball self) * nx 0 self.
Proof.
  intros Hc.
  assert (HJ : Jt 0 self = 0) by (apply Jt_zero_of_no_bound; ring).
  assert (Hbo : contact_ball_omega 0 self = ball_omega self).
  { unfold contact_ball_omega, decayed_ball_omega.
    rewrite HJ, ball_spin_k_0. unfold Rdiv. ring. }
  exists (contact_state 0 self).
  split; [apply update_contact; exact Hc |].
  cbn [contact_state wheel_omega wheel_angle ball_omega ball_angle ball vx vy].
  unfold decayed_wheel_omega. rewrite omega_k_0, Hbo, HJ.
  unfold v_tangential. rewrite drag_vx_0, drag_vy_0.
  repeat split; ring.
Qed.

Lemma contact_at_zero_dt_witness :
  dist 0 outside_state > allowed outside_state
  /\ exists s',
       update 0 outside_state = Ok s'
       /\ wheel_omega s' = wheel_omega outside_state
       /\ ball_omega s' = ball_omega outside_state.
Proof.
  assert (Hc : dist 0 outside_state > allowed outside_state).
  { rewrite outside_dist. unfold allowed. cbn. lra. }
  split; [exact Hc |].
  destruct (contact_at_zero_dt outside_state Hc)
    as (s' & Hup & Hw & _ & Hb & _).
  exists s'. split; [exact Hup |]. split; [exact Hw | exact Hb].
Defined.

(** X5: for [dt >= 0] the wheel turns by its decayed angular velocity times
    [dt]: never against its spin, and (friction non-negative) by at most
    [|wheel_omega| * dt]. *)
Theorem wheel_turns_with_spin (dt : R) (self : SpinningWheelSimulation) :
  0 <= dt ->
  0 <= wheel_angular_friction_per_second (cfg self) ->
  exists s',
    update dt self = Ok s'
    /\ wheel_angle s' - wheel_angle self = wheel_omega s' * dt
    /\ 0 <= (wheel_angle s' - wheel_angle self) * wheel_omega self
    /\ Rabs (wheel_angle s' - wheel_angle self) <= Rabs (wheel_omega self) * dt.
Proof.
  intros Hdt Hf.
  pose proof (decay_factor_range _ _ Hdt Hf) as Hk.
  exists (update_state dt self). split; [apply update_eq |].
  assert (Hw : wheel_omega (update_state dt self)
               = wheel_omega self * omega_k dt self)
    by (unfold update_state;
        destruct (Rgt_dec (dist dt self) (allowed self)); reflexivity).
  assert (Ha : wheel_angle (update_state dt self) - wheel_angle self
               = wheel_omega (update_state dt self) * dt)
    by (unfold update_state;
        destruct (Rgt_dec (dist dt self) (allowed self)); cbn; ring).
  fold (omega_k dt self) in Hk.
  split; [exact Ha |]. rewrite Ha, Hw.
  split.
  - replace (wheel_omega self * omega_k dt self * dt * wheel_omega self)
      with (omega_k dt self * dt * (wheel_omega self * wheel_omega self)) by ring.
    apply Rmult_le_pos; [apply Rmult_le_pos; lra | nra].
  - rewrite Rabs_mult, (Rabs_right dt) by lra.
    apply Rmult_le_compat_r; [exact Hdt | apply Rabs_scale_le; exact Hk].
Qed.

Lemma wheel_turns_with_spin_witness :
  0 <= 0.016
  /\ 0 <= wheel_angular_friction_per_second (cfg inside_state)
  /\ exists s',
       update 0.016 inside_state = Ok s'
       /\ 0 <= (wheel_angle s' - wheel_angle inside_state)
               * wheel_omega inside_state.
Proof.
  assert (Hdt : 0 <= 0.016) by lra.
  assert (Hf : 0 <= wheel_angular_friction_per_second (cfg inside_state))
    by (cbn; lra).
  split; [exact Hdt |]. split; [exact Hf |].
  destruct (wheel_turns_with_spin 0.016 inside_state Hdt Hf)
    as (s' & Hup & _ & Hs & _).
  exists s'. split; [exact Hup | exact Hs].
Defined.

Lemma Rmax_0_nonpos (a : R) : a <= 0 -> Rmax 0 a = 0.
Proof. intros H. unfold Rmax. destruct (Rle_dec 0 a); lra. Qed.

(** X6: when the friction would overshoot ([wheel friction * dt >= 1]) the
    floored factor stops the wheel instead of reversing it: the angular
    velocity becomes exactly zero and the angle keeps its value. *)
Theorem overdamped_wheel_stops (dt : R) (self : SpinningWheelSimulation) :
  1 <= wheel_angular_friction_per_second (cfg self) * dt ->
  exists s',
    update dt self = Ok s'
    /\ wheel_omega s' = 0
    /\ wheel_angle s' = wheel_angle self.
Proof.
  intros Hover.
  assert (Hk : omega_k dt self = 0) by (apply Rmax_0_nonpos; lra).
  exists (update_state dt self). split; [apply update_eq |].
  unfold update_state.
  destruct (Rgt_dec (dist dt self) (allowed self));
    cbn [contact_state free_state wheel_omega wheel_angle];
    unfold decayed_wheel_omega; rewrite Hk; split; ring.
Qed.

Lemma overdamped_wheel_stops_witness :
  1 <= wheel_angular_friction_per_second (cfg inside_state) * 4
  /\ exists s',
       update 4 inside_state = Ok s'
       /\ wheel_omega s' = 0
       /\ wheel_angle s' = wheel_angle inside_state.
Proof.
  assert (H : 1 <= wheel_angular_friction_per_second (cfg inside_state) * 4)
    by (cbn; lra).
  split; [exact H | exact (overdamped_wheel_stops 4 inside_state H)].
Defined.

(** X7: on a step without contact and with [dt >= 0] the ball's spin is
    multiplied by [max(0, 1 - ballAngularFriction*dt)], a factor in [0, 1]
    (friction non-negative): its magnitude does not grow, its sign does not
    flip, and the spin angle advances by the decayed spin times [dt]. *)
Theorem free_step_ball_spin_decays (dt : R) (self : SpinningWheelSimulation) :
  0 <= dt ->
  0 <= ball_angular_friction_per_second (cfg self) ->
  dist dt self <= allowed self ->
  exists s',
    update dt self = Ok s'
    /\ ball_omega s'
       = ball_omega self
         * Rmax 0 (1 - ball_angular_friction_per_second (cfg self) * dt)
    /\ Rabs (ball_omega s') <= Rabs (ball_omega self)
    /\ 0 <= ball_omega s' * ball_omega self
    /\ ball_angle s' = ball_angle self + ball_omega s' * dt.
Proof.
  intros Hdt Hf Hfree.
  pose proof (decay_factor_range _ _ Hdt Hf) as Hk.
  exists (free_state dt self). split; [apply update_free; exact Hfree |].
  cbn [free_state ball_omega ball_angle].
  unfold decayed_ball_omega, ball_spin_k.
  set (k := Rmax 0 (1 - ball_angular_friction_per_second (cfg self) * dt)) in *.
  split; [reflexivity |].
  split; [apply Rabs_scale_le; exact Hk |].
  split; [| reflexivity].
  replace (ball_omega self * k * ball_omega self)
    with (k * (ball_omega self * ball_omega self)) by ring.
  apply Rmult_le_pos; [lra | nra].
Qed.

Lemma free_step_ball_spin_decays_witness :
  0 <= 0.016
  /\ 0 <= ball_angular_friction_per_second (cfg inside_state)
  /\ dist 0.016 inside_state <= allowed inside_state
  /\ exists s',
       update 0.016 inside_state = Ok s'
       /\ Rabs (ball_omega s') <= Rabs (ball_omega inside_state).
Proof.
  assert (Hdt : 0 <= 0.016) by lra.
  assert (Hf : 0 <= ball_angular_friction_per_second (cfg inside_state))
    by (cbn; lra).
  split; [exact Hdt |]. split; [exact Hf |]. split; [exact inside_free_16ms |].
  destruct (free_step_ball_spin_decays 0.016 inside_state Hdt Hf inside_free_16ms)
    as (s' & Hup & _ & Habs & _).
  exists s'. split; [exact Hup | exact Habs].
Defined.

(** X8: a spin impulse reaches the ball only through contact: on a step
    without contact, [update] after [randomize_spin] gives the ball the same
    position, velocity, spin and spin angle as [update] alone. *)
Theorem free_step_ignores_spin_impulse (dt u : R) (self : SpinningWheelSimulation) :
  dist dt self <= allowed self ->
  exists s1 s2,
    update dt self = Ok s1
    /\ update dt (randomize_spin u self) = Ok s2
    /\ ball s2 = ball s1
    /\ ball_omega s2 = ball_omega s1
    /\ ball_angle s2 = ball_angle s1.
Proof.
  intros Hfree.
  exists (free_state dt self), (free_state dt (randomize_spin u self)).
  split; [apply update_free; exact Hfree |].
  split; [apply update_free; exact Hfree |].
  repeat split; reflexivity.
Qed.

Lemma free_step_ignores_spin_impulse_witness :
  dist 0.016 inside_state <= allowed inside_state
  /\ exists s1 s2,
       update 0.016 inside_state = Ok s1
       /\ update 0.016 (randomize_spin 0.5 inside_state) = Ok s2
       /\ ball s2 = ball s1.
Proof.
  split; [exact inside_free_16ms |].
  destruct (free_step_ignores_spin_impulse 0.016 0.5 inside_state inside_free_16ms)
    as (s1 & s2 & H1 & H2 & Hb & _).
  exists s1, s2. split; [exact H1 |]. split; [exact H2 | exact Hb].
Defined.

(** ** Construction, resize and reset *)

Lemma place_distance (u : R) (self : SpinningWheelSimulation) :
  0 <= wheel_radius_px self - ball_radius_px (cfg self) - 1 ->
  distance (place_ball_near_rim u self)
  = wheel_radius_px self - ball_radius_px (cfg self) - 1.
Proof.
  intros Hr. unfold distance. cbn.
  set (r := wheel_radius_px self - ball_radius_px (cfg self) - 1) in *.
  replace (center_x self + cos (u * tau) * r - center_x self)
    with (cos (u * tau) * r) by ring.
  replace (center_y self + sin (u * tau) * r - center_y self)
    with (sin (u * tau) * r) by ring.
  rewrite hypot_scale by exact Hr. rewrite hypot_cos_sin. ring.
Qed.

(** X9: for every requested size (zero and negative ones included) and a
    ball of radius at most 39, [resize] sets the center to half the size,
    keeps the inner radius at 40 or more, puts the ball 1 px inside the
    allowed radius of the new wheel, and keeps the wheel's angle and
    angular velocity and the ball's spin. *)
Theorem resize_places_ball_inside (w h : Z) (u : R) (self : SpinningWheelSimulation) :
  ball_radius_px (cfg self) <= 39 ->
  let s' := resize w h u self in
  center_x s' = IZR w * 0.5
  /\ center_y s' = IZR h * 0.5
  /\ 40 <= wheel_radius_px s'
  /\ distance s' = allowed s' - 1
  /\ cfg s' = cfg self
  /\ wheel_angle s' = wheel_angle self
  /\ wheel_omega s' = wheel_omega self
  /\ ball_angle s' = ball_angle self
  /\ ball_omega s' = ball_omega self.
Proof.
  intros Hb s'.
  pose proof (resize_radius w h u self) as Hr.
  split; [reflexivity |]. split; [reflexivity |]. split; [exact Hr |].
  split; [| repeat split; reflexivity].
  unfold s', resize, allowed. cbv zeta.
  rewrite place_distance.
  - cbn. ring.
  - cbn [cfg wheel_radius_px].
    pose proof (Rmax_l 40 (IZR (Z.min w h) * 0.45 - rim_thickness_px (cfg self))).
    lra.
Qed.

Lemma resize_places_ball_inside_witness :
  ball_radius_px (cfg outside_state) <= 39
  /\ distance (resize 0 (-5) 0.25 outside_state)
     = allowed (resize 0 (-5) 0.25 outside_state) - 1.
Proof.
  assert (Hb : ball_radius_px (cfg outside_state) <= 39) by (cbn; lra).
  split; [exact Hb |].
  destruct (resize_places_ball_inside 0 (-5) 0.25 outside_state Hb)
    as (_ & _ & _ & Hd & _).
  exact Hd.
Defined.

(** X10: the state after [resize] does not depend on an earlier resize or
    reset: of two successive resizes only the last one counts, and a reset
    before a resize is overwritten. *)
Theorem resize_last_wins (w h w' h' : Z) (u u' : R)
  (self : SpinningWheelSimulation) :
  resize w h u (resize w' h' u' self) = resize w h u self
  /\ resize w h u (place_ball_near_rim u' self) = resize w h u self
  /\ place_ball_near_rim u (place_ball_near_rim u' self)
     = place_ball_near_rim u self.
Proof. repeat split; reflexivity. Qed.

(** X11: the inner radius [resize] computes is monotone in the window size:
    a window at least as wide and as high never gets a smaller wheel. *)
Theorem resize_radius_monotone (w h w' h' : Z) (u u' : R)
  (self : SpinningWheelSimulation) :
  (w <= w')%Z ->
  (h <= h')%Z ->
  wheel_radius_px (resize w h u self) <= wheel_radius_px (resize w' h' u' self).
Proof.
  intros Hw Hh. cbn.
  assert (Hm : (Z.min w h <= Z.min w' h')%Z) by lia.
  apply IZR_le in Hm.
  apply Rle_max_compat_l. lra.
Qed.

Lemma resize_radius_monotone_witness :
  (100 <= 820)%Z
  /\ (100 <= 900)%Z
  /\ wheel_radius_px (resize 100 100 0 outside_state)
     <= wheel_radius_px (resize 820 900 0.5 outside_state).
Proof.
  assert (Hw : (100 <= 820)%Z) by lia.
  assert (Hh : (100 <= 900)%Z) by lia.
  split; [exact Hw |]. split; [exact Hh |].
  exact (resize_radius_monotone 100 100 820 900 0 0.5 outside_state Hw Hh).
Defined.

(** X12: a simulation constructed with a ball of radius at most 39 starts
    with the ball 1 px inside the allowed radius, the wheel turning at
    0.4 rad/s from angle 0 and the ball without spin, and a first
    [update(0)] leaves it as built. *)
Theorem init_starts_inside (c : Config) (u : R) :
  ball_radius_px c <= 39 ->
  let s := init c u in
  cfg s = c
  /\ center_x s = IZR (window_size_px c) * 0.5
  /\ center_y s = IZR (window_size_px c) * 0.5
  /\ 40 <= wheel_radius_px s
  /\ distance s = allowed s - 1
  /\ wheel_angle s = 0
  /\ wheel_omega s = 0.4
  /\ ball_angle s = 0
  /\ ball_omega s = 0
  /\ update 0 s = Ok s.
Proof.
  intros Hb s.
  pose proof (init_radius c u) as Hr. fold s in Hr.
  assert (Hd : distance s = allowed s - 1).
  { unfold s, init, allowed. cbv zeta. rewrite place_distance.
    - cbn. ring.
    - cbn [cfg wheel_radius_px].
      pose proof (Rmax_l 40 (IZR (Z.min (window_size_px c) (window_size_px c))
                             * 0.45 - rim_thickness_px c)).
      lra. }
  assert (Ha : 0 <= allowed s - 1).
  { unfold allowed. change (cfg s) with c. lra. }
  repeat (split; [reflexivity || assumption |]).
  rewrite update_free; [rewrite free_state_0; reflexivity |].
  rewrite dist_0, Hd. unfold py_or.
  destruct (Req_dec_T (allowed s - 1) 0); lra.
Qed.

Lemma init_starts_inside_witness :
  ball_radius_px Config_default <= 39
  /\ distance (init Config_default 0.25) = allowed (init Config_default 0.25) - 1
  /\ update 0 (init Config_default 0.25) = Ok (init Config_default 0.25).
Proof.
  assert (Hb : ball_radius_px Config_default <= 39) by (cbn; lra).
  split; [exact Hb |].
  destruct (init_starts_inside Config_default 0.25 Hb)
    as (_ & _ & _ & _ & Hd & _ & _ & _ & _ & Hup).
  split; [exact Hd | exact Hup].
Defined.

(** ** The loop of [main], with rendering *)

(** X13: [main] clamps the tick before [update] sees it: negative ticks
    count as 0, ticks above 32 ms as 0.032 s, the others are converted from
    milliseconds to seconds unchanged; the result is always in
    [0, 0.032]. *)
Theorem clamp_dt_saturates (dt_ms : Z) :
  0 <= clamp_dt dt_ms <= 0.032
  /\ clamp_dt dt_ms
     = (if (dt_ms <? 0)%Z then 0
        else if (32 <? dt_ms)%Z then 0.032
        else IZR dt_ms / 1000).
Proof.
  split; [apply clamp_dt_range |].
  unfold clamp_dt.
  destruct (Z.ltb_spec dt_ms 0) as [Hneg | Hpos].
  - replace (Z.max 0 (Z.min 32 dt_ms)) with 0%Z by lia. lra.
  - destruct (Z.ltb_spec 32 dt_ms) as [Hbig | Hsmall].
    + replace (Z.max 0 (Z.min 32 dt_ms)) with 32%Z by lia. lra.
    + replace (Z.max 0 (Z.min 32 dt_ms)) with dt_ms by lia. reflexivity.
Qed.

Lemma range_length (n : Z) : length (range n) = Z.to_nat n.
Proof. unfold range. rewrite length_map, length_seq. reflexivity. Qed.

Lemma range_bounds (n i : Z) : In i (range n) -> (0 <= i < n)%Z.
Proof.
  unfold range. rewrite in_map_iff. intros (k & Hk & Hin).
  apply in_seq in Hin. lia.
Qed.

Lemma draw_spokes_eq (radius : R) (self : SpinningWheelSimulation) :
  spoke_count (cfg self) <> 0%Z ->
  _draw_spokes radius self
  = Ok (map (spoke self radius (tau / IZR (spoke_count (cfg self))))
          (range (spoke_count (cfg self)))).
Proof.
  intros Hn. unfold _draw_spokes.
  rewrite truediv_ok by (apply not_0_IZR; exact Hn). reflexivity.
Qed.

Lemma draw_spokes_error (radius : R) (self : SpinningWheelSimulation) :
  spoke_count (cfg self) = 0%Z ->
  _draw_spokes radius self = ZeroDivisionError.
Proof.
  intros Hn. unfold _draw_spokes, truediv. rewrite Hn.
  destruct (Req_dec_T 0 0); [reflexivity | lra].
Qed.






Lemma update_state_cfg (dt : R) (sim : SpinningWheelSimulation) :
  cfg (update_state dt sim) = cfg sim.
Proof.
  unfold update_state. destruct (Rgt_dec (dist dt sim) (allowed sim)); reflexivity.
Qed.






(** ** Geometry of the rendering *)

Lemma hypot_neg_neg (a b : R) : hypot (- a) (- b) = hypot a b.
Proof. unfold hypot. f_equal. ring. Qed.

(** X17: the last two calls of [draw] are the ball's stripes: two segments
    of width 3 that both have the ball's position as midpoint, are
    perpendicular to each other and have length twice the ball radius (two
    orthogonal diameters, turned by [ball_angle]). *)
Theorem draw_ball_stripes (self : SpinningWheelSimulation) :
  spoke_count (cfg self) <> 0%Z ->
  0 <= ball_radius_px (cfg self) ->
  exists front color ex0 ey0 ex1 ey1 mx0 my0 mx1 my1,
    draw self
    = Ok (front ++ [draw_line color (ex0, ey0) (ex1, ey1) 3;
                    draw_line color (mx0, my0) (mx1, my1) 3])
    /\ (ex0 + ex1) / 2 = x (ball self) /\ (ey0 + ey1) / 2 = y (ball self)
    /\ (mx0 + mx1) / 2 = x (ball self) /\ (my0 + my1) / 2 = y (ball self)
    /\ (ex1 - ex0) * (mx1 - mx0) + (ey1 - ey0) * (my1 - my0) = 0
    /\ hypot (ex1 - ex0) (ey1 - ey0) = 2 * ball_radius_px (cfg self)
    /\ hypot (mx1 - mx0) (my1 - my0) = 2 * ball_radius_px (cfg self)
    /\ ex1 - ex0 = 2 * ball_radius_px (cfg self) * cos (ball_angle self)
    /\ ey1 - ey0 = 2 * ball_radius_px (cfg self) * sin (ball_angle self).
Proof.
  intros Hn Hr.
  set (r := ball_radius_px (cfg self)) in *.
  set (ca := cos (ball_angle self)). set (sa := sin (ball_angle self)).
  assert (H2r : 0 <= 2 * r) by lra.
  unfold draw.
  rewrite truediv_ok by (apply not_0_IZR; exact Hn). cbn [bind].
  rewrite draw_spokes_eq by exact Hn. cbn [bind]. fold r ca sa.
  eexists _, _, _, _, _, _, _, _, _, _.
  split.
  { rewrite !app_assoc.
    match goal with
    | |- Ok (?l ++ [?a; ?b; ?c; ?d; ?e]) = _ =>
        change (l ++ [a; b; c; d; e]) with (l ++ [a; b; c] ++ [d; e])
    end.
    rewrite app_assoc. reflexivity. }
  split; [lra |]. split; [lra |]. split; [lra |]. split; [lra |].
  split; [ring |].
  split.
  { replace (x (ball self) + ca * r - (x (ball self) - ca * r))
      with (ca * (2 * r)) by ring.
    replace (y (ball self) + sa * r - (y (ball self) - sa * r))
      with (sa * (2 * r)) by ring.
    rewrite hypot_scale by exact H2r. unfold ca, sa. rewrite hypot_cos_sin. ring. }
  split; [| split; ring].
  replace (x (ball self) - sa * r - (x (ball self) + sa * r))
    with (- sa * (2 * r)) by ring.
  replace (y (ball self) + ca * r - (y (ball self) - ca * r))
    with (ca * (2 * r)) by ring.
  rewrite hypot_scale by exact H2r. rewrite hypot_rot90.
  unfold ca, sa. rewrite hypot_cos_sin. ring.
Qed.

Lemma draw_ball_stripes_witness :
  spoke_count (cfg inside_state) <> 0%Z
  /\ 0 <= ball_radius_px (cfg inside_state)
  /\ exists front color ex0 ey0 ex1 ey1 mx0 my0 mx1 my1,
       draw inside_state
       = Ok (front ++ [draw_line color (ex0, ey0) (ex1, ey1) 3;
                       draw_line color (mx0, my0) (mx1, my1) 3])
       /\ (ex1 - ex0) * (mx1 - mx0) + (ey1 - ey0) * (my1 - my0) = 0.
Proof.
  assert (Hn : spoke_count (cfg inside_state) <> 0%Z) by (cbn; lia).
  assert (Hr : 0 <= ball_radius_px (cfg inside_state)) by (cbn; lra).
  split; [exact Hn |]. split; [exact Hr |].
  destruct (draw_ball_stripes inside_state Hn Hr)
    as (front & color & ex0 & ey0 & ex1 & ey1 & mx0 & my0 & mx1 & my1
        & Hd & _ & _ & _ & _ & Hperp & _).
  exists front, color, ex0, ey0, ex1, ey1, mx0, my0, mx1, my1.
  split; [exact Hd | exact Hperp].
Defined.

Lemma spoke_radial (self : SpinningWheelSimulation) (radius step : R) (i : Z) :
  0 <= radius ->
  radial_segment self (radius * 0.60) (radius * 0.98) (spoke self radius step i).
Proof.
  intros Hr. unfold spoke, radial_segment. cbv zeta.
  set (a := wheel_angle self + IZR i * step).
  pose proof (sin2_cos2 a) as Hsc. unfold Rsqr in Hsc.
  replace (center_x self + cos a * (radius * 0.60) - center_x self)
    with (cos a * (radius * 0.60)) by ring.
  replace (center_y self + sin a * (radius * 0.60) - center_y self)
    with (sin a * (radius * 0.60)) by ring.
  replace (center_x self + cos a * (radius * 0.98) - center_x self)
    with (cos a * (radius * 0.98)) by ring.
  replace (center_y self + sin a * (radius * 0.98) - center_y self)
    with (sin a * (radius * 0.98)) by ring.
  rewrite !hypot_scale by lra. rewrite hypot_cos_sin.
  split; [ring |]. split; [ring |]. split; [ring |].
  assert (Hp : 0 <= radius * 0.60) by lra.
  assert (Hq : 0 <= radius * 0.98) by lra.
  set (p := radius * 0.60) in *. set (q := radius * 0.98) in *.
  replace (cos a * p * (cos a * q) + sin a * p * (sin a * q))
    with ((sin a * sin a + cos a * cos a) * (p * q)) by ring.
  rewrite Hsc. nra.
Qed.

(** X18: with a non-zero spoke count and a non-negative radius,
    [_draw_spokes] draws [max(spoke_count, 0)] segments, each on a ray from
    the wheel center, from 0.60 to 0.98 times the radius away from it; with
    no spokes configured it raises [ZeroDivisionError]. *)
Theorem draw_spokes_radial (radius : R) (self : SpinningWheelSimulation) :
  0 <= radius ->
  (spoke_count (cfg self) = 0%Z
   /\ _draw_spokes radius self = ZeroDivisionError)
  \/ (spoke_count (cfg self) <> 0%Z
      /\ exists lines,
           _draw_spokes radius self = Ok lines
           /\ length lines = Z.to_nat (spoke_count (cfg self))
           /\ Forall (radial_segment self (radius * 0.60) (radius * 0.98))
                lines).
Proof.
  intros Hr.
  destruct (Z.eq_dec (spoke_count (cfg self)) 0) as [Hz | Hnz].
  - left. split; [exact Hz | apply draw_spokes_error; exact Hz].
  - right. split; [exact Hnz |].
    eexists. split; [apply draw_spokes_eq; exact Hnz |].
    split; [rewrite length_map; apply range_length |].
    apply Forall_map, Forall_forall. intros i _.
    apply spoke_radial. exact Hr.
Qed.

Lemma draw_spokes_radial_witness :
  0 <= 357
  /\ exists lines,
       _draw_spokes 357 inside_state = Ok lines
       /\ length lines = 36%nat.
Proof.
  assert (Hr : 0 <= 357) by lra.
  split; [exact Hr |].
  destruct (draw_spokes_radial 357 inside_state Hr)
    as [[Hz _] | (_ & lines & Hd & Hlen & _)].
  - cbn in Hz. discriminate Hz.
  - exists lines. split; [exact Hd | exact Hlen].
Defined.

(** X19: the wedges [draw] paints tile the full turn: with
    [step = tau / spoke_count], each wedge has its apex at the wheel center,
    ends at the rim point where the next one begins, and the last wedge
    ends where the first begins. *)
Theorem wedges_tile_the_rim (self : SpinningWheelSimulation) (outer_radius : R) :
  spoke_count (cfg self) <> 0%Z ->
  let n := spoke_count (cfg self) in
  let step := tau / IZR n in
  (forall i : Z,
     nth 0 (wedge_points self outer_radius step i) (0, 0)
     = (center_x self, center_y self)
     /\ nth 2 (wedge_points self outer_radius step i) (0, 0)
        = nth 1 (wedge_points self outer_radius step (i + 1)) (0, 0))
  /\ nth 2 (wedge_points self outer_radius step (n - 1)) (0, 0)
     = nth 1 (wedge_points self outer_radius step 0) (0, 0).
Proof.
  intros Hn n step.
  split; [intros i; split; reflexivity |].
  cbn [wedge_points nth].
  assert (HnR : IZR n <> 0) by (apply not_0_IZR; exact Hn).
  assert (Ha : wheel_angle self + IZR (n - 1 + 1) * step
               = wheel_angle self + 0 * step + 2 * INR 1 * PI).
  { replace (n - 1 + 1)%Z with n by lia.
    unfold step, tau. cbn [INR]. field. exact HnR. }
  rewrite Ha, cos_period, sin_period. reflexivity.
Qed.

Lemma wedges_tile_the_rim_witness :
  spoke_count (cfg inside_state) <> 0%Z
  /\ nth 2 (wedge_points inside_state 369 (tau / 36) 35) (0, 0)
     = nth 1 (wedge_points inside_state 369 (tau / 36) 0) (0, 0).
Proof.
  assert (Hn : spoke_count (cfg inside_state) <> 0%Z) by (cbn; lia).
  split; [exact Hn |].
  destruct (wedges_tile_the_rim inside_state 369 Hn) as [_ Hclose].
  exact Hclose.
Defined.

(** ** Sequences of steps *)

Lemma update_state_wheel_omega (dt : R) (self : SpinningWheelSimulation) :
  wheel_omega (update_state dt self)
  = wheel_omega self
    * Rmax 0 (1 - wheel_angular_friction_per_second (cfg self) * dt).
Proof.
  unfold update_state.
  destruct (Rgt_dec (dist dt self) (allowed self)); reflexivity.
Qed.

Lemma updates_wheel_factor (dts : list R) :
  forall self : SpinningWheelSimulation,
    Forall (fun dt => 0 <= dt) dts ->
    0 <= wheel_angular_friction_per_second (cfg self) ->
    exists states,
      updates dts self = Ok states
      /\ Forall
           (fun s => exists c, 0 <= c <= 1 /\ wheel_omega s = wheel_omega self * c)
           states.
Proof.
  induction dts as [| dt dts IH]; intros self Hdts Hf.
  - exists []. split; [reflexivity | constructor].
  - inversion Hdts as [| ? ? Hdt Hrest]; subst.
    pose proof (decay_factor_range _ _ Hdt Hf) as Hk.
    pose proof (update_state_wheel_omega dt self) as Hw.
    destruct (IH (update_state dt self) Hrest) as (rest & Hrun & Hall).
    { rewrite update_state_cfg. exact Hf. }
    exists (update_state dt self :: rest).
    cbn [updates]. rewrite update_eq. cbn [bind]. rewrite Hrun. cbn [bind].
    split; [reflexivity |].
    set (k := Rmax 0 (1 - wheel_angular_friction_per_second (cfg self) * dt)) in *.
    constructor.
    + exists k. split; [exact Hk | exact Hw].
    + apply Forall_impl with (2 := Hall).
      intros s (c & Hc & Hs). exists (k * c).
      split; [split; nra |]. rewrite Hs, Hw. ring.
Qed.

(** X20: over any sequence of [update] calls with non-negative time steps
    (wheel friction non-negative), the wheel's angular velocity after each
    call is the initial one times a factor in [0, 1]: without an impulse
    the wheel never speeds up and never reverses, and the ball has no
    influence on it. *)
Theorem updates_wheel_never_speeds_up (dts : list R)
  (self : SpinningWheelSimulation) :
  Forall (fun dt => 0 <= dt) dts ->
  0 <= wheel_angular_friction_per_second (cfg self) ->
  exists states,
    updates dts self = Ok states
    /\ Forall
         (fun s =>
            Rabs (wheel_omega s) <= Rabs (wheel_omega self)
            /\ 0 <= wheel_omega s * wheel_omega self)
         states.
Proof.
  intros Hdts Hf.
  destruct (updates_wheel_factor dts self Hdts Hf) as (states & Hrun & Hall).
  exists states. split; [exact Hrun |].
  apply Forall_impl with (2 := Hall).
  intros s (c & Hc & Hs). rewrite Hs. split.
  - apply Rabs_scale_le. exact Hc.
  - replace (wheel_omega self * c * wheel_omega self)
      with (c * (wheel_omega self * wheel_omega self)) by ring.
    apply Rmult_le_pos; [lra | nra].
Qed.

Lemma updates_wheel_never_speeds_up_witness :
  Forall (fun dt => 0 <= dt) [0.016; 0.032; 0.008]
  /\ 0 <= wheel_angular_friction_per_second (cfg outside_state)
  /\ exists states,
       updates [0.016; 0.032; 0.008] outside_state = Ok states
       /\ Forall
            (fun s =>
               Rabs (wheel_omega s) <= Rabs (wheel_omega outside_state)
               /\ 0 <= wheel_omega s * wheel_omega outside_state)
            states.
Proof.
  assert (Hdts : Forall (fun dt => 0 <= dt) [0.016; 0.032; 0.008])
    by (repeat constructor; lra).
  assert (Hf : 0 <= wheel_angular_friction_per_second (cfg outside_state))
    by (cbn; lra).
  split; [exact Hdts |]. split; [exact Hf |].
  exact (updates_wheel_never_speeds_up [0.016; 0.032; 0.008] outside_state
           Hdts Hf).
Defined.

(** X21: after [n] calls of [update] with the same time step the wheel's
    angular velocity is the initial one times
    [max(0, 1 - wheelAngularFriction*dt) ^ n], whatever the ball does. *)
Theorem wheel_decay_closed_form (n : nat) (dt : R) :
  forall self : SpinningWheelSimulation,
  exists states,
    updates (repeat dt n) self = Ok states
    /\ length states = n
    /\ wheel_omega (last states self)
       = wheel_omega self
         * Rmax 0 (1 - wheel_angular_friction_per_second (cfg self) * dt) ^ n.
Proof.
  induction n as [| n IH]; intros self.
  - exists []. cbn. repeat split. ring.
  - destruct (IH (update_state dt self)) as (rest & Hrun & Hlen & Hlast).
    exists (update_state dt self :: rest).
    cbn [repeat updates]. rewrite update_eq. cbn [bind]. rewrite Hrun.
    cbn [bind]. split; [reflexivity |].
    split; [cbn; rewrite Hlen; reflexivity |].
    rewrite update_state_cfg, update_state_wheel_omega in Hlast.
    destruct rest as [| s rest'].
    + cbn in Hlen. subst n. cbn. rewrite update_state_wheel_omega. ring.
    + change (last (update_state dt self :: s :: rest') self)
        with (last (s :: rest') self).
      assert (Hl : last (s :: rest') self
                   = last (s :: rest') (update_state dt self))
        by (clear; revert s; induction rest' as [| t rest' IHr]; intros s;
            [reflexivity | exact (IHr t)]).
      rewrite Hl, Hlast. cbn [pow]. ring.
Qed.

(** ** Direction of the launch *)

(** X22: [place_ball_near_rim] always launches the ball in the same
    rotational sense: the moment of its velocity about the wheel center is
    [r * boost] with [r] the placement radius and [boost] the launch
    speed, non-negative for a wheel that leaves room for the ball and a
    non-negative boost. *)
Theorem place_ball_launch_sense (u : R) (self : SpinningWheelSimulation) :
  ball_radius_px (cfg self) + 1 <= wheel_radius_px self ->
  0 <= ball_boost_speed_m_s (cfg self) * pixels_per_meter (cfg self) ->
  let s' := place_ball_near_rim u self in
  (x (ball s') - center_x s') * vy (ball s')
  - (y (ball s') - center_y s') * vx (ball s')
  = (wheel_radius_px self - ball_radius_px (cfg self) - 1)
    * (ball_boost_speed_m_s (cfg self) * pixels_per_meter (cfg self))
  /\ 0 <= (x (ball s') - center_x s') * vy (ball s')
          - (y (ball s') - center_y s') * vx (ball s').
Proof.
  intros Hr Hb s'.
  pose proof (sin2_cos2 (u * tau)) as Hsc. unfold Rsqr in Hsc.
  set (r := wheel_radius_px self - ball_radius_px (cfg self) - 1) in *.
  set (boost := ball_boost_speed_m_s (cfg self) * pixels_per_meter (cfg self)) in *.
  assert (Hm : (x (ball s') - center_x s') * vy (ball s')
               - (y (ball s') - center_y s') * vx (ball s')
               = r * boost).
  { cbn. fold r boost.
    transitivity ((sin (u * tau) * sin (u * tau) + cos (u * tau) * cos (u * tau))
                  * (r * boost)); [ring | rewrite Hsc; ring]. }
  split; [exact Hm |].
  rewrite Hm. apply Rmult_le_pos; [unfold r; lra | exact Hb].
Qed.

Lemma place_ball_launch_sense_witness :
  ball_radius_px (cfg outside_state) + 1 <= wheel_radius_px outside_state
  /\ 0 <= ball_boost_speed_m_s (cfg outside_state)
          * pixels_per_meter (cfg outside_state)
  /\ 0 <= (x (ball (place_ball_near_rim 0.25 outside_state))
           - center_x (place_ball_near_rim 0.25 outside_state))
          * vy (ball (place_ball_near_rim 0.25 outside_state))
          - (y (ball (place_ball_near_rim 0.25 outside_state))
             - center_y (place_ball_near_rim 0.25 outside_state))
            * vx (ball (place_ball_near_rim 0.25 outside_state)).
Proof.
  assert (Hr : ball_radius_px (cfg outside_state) + 1
               <= wheel_radius_px outside_state) by (cbn; lra).
  assert (Hb : 0 <= ball_boost_speed_m_s (cfg outside_state)
                    * pixels_per_meter (cfg outside_state)) by (cbn; lra).
  split; [exact Hr |]. split; [exact Hb |].
  destruct (place_ball_launch_sense 0.25 outside_state Hr Hb) as [_ Hpos].
  exact Hpos.
Defined.

(** ** Pixel radii of the rendering *)

Lemma Int_part_mono (a b : R) : a <= b -> (Int_part a <= Int_part b)%Z.
Proof.
  intros Hab.
  destruct (base_Int_part a) as [Ha _]. destruct (base_Int_part b) as [_ Hb].
  assert (H : IZR (Int_part a) < IZR (Int_part b + 1))
    by (rewrite plus_IZR; lra).
  apply lt_IZR in H. lia.
Qed.

Lemma Int_part_nonneg (a : R) : 0 <= a -> (0 <= Int_part a)%Z.
Proof.
  intros Ha. destruct (base_Int_part a) as [_ Hb].
  assert (H : IZR (-1) < IZR (Int_part a)) by lra.
  apply lt_IZR in H. lia.
Qed.

(** [int()] is monotone. *)
Lemma py_int_mono (a b : R) : a <= b -> (py_int a <= py_int b)%Z.
Proof.
  intros Hab. unfold py_int.
  destruct (Rle_dec 0 a) as [Ha | Ha], (Rle_dec 0 b) as [Hb | Hb].
  - apply Int_part_mono. exact Hab.
  - lra.
  - assert (H1 : (0 <= Int_part (- a))%Z) by (apply Int_part_nonneg; lra).
    assert (H2 : (0 <= Int_part b)%Z) by (apply Int_part_nonneg; lra).
    lia.
  - assert (H : (Int_part (- b) <= Int_part (- a))%Z)
      by (apply Int_part_mono; lra).
    lia.
Qed.

(** X23: with a non-negative rim thickness the ring [draw] paints is well
    formed: after the background fill it draws the outer disc, then the
    wedges, then the inner hole with the same pixel center and a pixel
    radius that is at most the outer one. *)
Theorem draw_ring_radii (self : SpinningWheelSimulation) :
  spoke_count (cfg self) <> 0%Z ->
  0 <= rim_thickness_px (cfg self) ->
  exists center r_outer r_inner wedges rest,
    draw self
    = Ok (screen_fill (background_color (cfg self))
          :: draw_circle (rim_outer_color (cfg self)) center r_outer 0
          :: wedges
             ++ draw_circle (background_color (cfg self)) center r_inner 0
                :: rest)
    /\ length wedges = (3 * Z.to_nat (spoke_count (cfg self)))%nat
    /\ center = (py_int (center_x self), py_int (center_y self))
    /\ r_outer = py_int (wheel_radius_px self + rim_thickness_px (cfg self))
    /\ r_inner = py_int (wheel_radius_px self)
    /\ (r_inner <= r_outer)%Z.
Proof.
  intros Hn Hrim. unfold draw.
  rewrite truediv_ok by (apply not_0_IZR; exact Hn). cbn [bind].
  rewrite draw_spokes_eq by exact Hn. cbn [bind].
  eexists _, _, _, _, _.
  split; [cbn [app]; reflexivity |].
  split.
  { rewrite (flat_map_constant_length (c := 3)) by (intros; reflexivity).
    rewrite range_length. lia. }
  split; [reflexivity |]. split; [reflexivity |]. split; [reflexivity |].
  apply py_int_mono. lra.
Qed.

Lemma draw_ring_radii_witness :
  spoke_count (cfg inside_state) <> 0%Z
  /\ 0 <= rim_thickness_px (cfg inside_state)
  /\ exists center r_outer r_inner wedges rest,
       draw inside_state
       = Ok (screen_fill (background_color (cfg inside_state))
             :: draw_circle (rim_outer_color (cfg inside_state)) center r_outer 0
             :: wedges
                ++ draw_circle (background_color (cfg inside_state)) center
                     r_inner 0
                   :: rest)
       /\ (r_inner <= r_outer)%Z.
Proof.
  assert (Hn : spoke_count (cfg inside_state) <> 0%Z) by (cbn; lia).
  assert (Hrim : 0 <= rim_thickness_px (cfg inside_state)) by (cbn; lra).
  split; [exact Hn |]. split; [exact Hrim |].
  destruct (draw_ring_radii inside_state Hn Hrim)
    as (center & r_outer & r_inner & wedges & rest & Hd & _ & _ & _ & _ & Hle).
  exists center, r_outer, r_inner, wedges, rest.
  split; [exact Hd | exact Hle].
Defined.
